(** * server.js: WebSocket signaling relay and static file server

    A shallow embedding of [server.js].  The program is a Node.js process
    with three pieces of code that run to completion on the event loop:

    - the [PORT] constant (line 31),
    - the HTTP request handler over [ROUTES] and [MIME_TYPES] (lines 37-73),
    - the WebSocket handlers over the [clients] set (lines 79-107).

    JavaScript objects are modelled by their observable content: a
    [WebSocket] object is an identity together with its [readyState] and
    registered listeners, the [clients] Set is an insertion-ordered list
    without duplicates, strings handled by the relay are sequences of
    UTF-16 code units, and the effects of a handler (console output,
    [client.send] calls, Set mutation, an exception) are threaded through
    a state-and-exception monad. *)

From Stdlib Require Import ZArith Lia Ascii String.
From stdpp Require Import base option list gmap strings.

Local Open Scope Z_scope.

(** ** JavaScript values that the program manipulates *)

Module JS.

(** The values that [ROUTES[...]], [MIME_TYPES[...]] and
    [process.env.PORT || 8080] can produce.  [JObject] stands for the
    functions and objects that a plain object inherits from
    [Object.prototype]; none of them is a string. *)
Inductive value :=
| JUndefined
| JString (s : string)
| JNumber (n : Z)
| JObject.

Global Instance value_eq_dec : EqDecision value.
Proof. solve_decision. Defined.

(** ToBoolean. *)
Definition truthy (v : value) : bool :=
  match v with
  | JUndefined => false
  | JString s => negb (String.eqb s "")
  | JNumber n => negb (n =? 0)
  | JObject => true
  end.

(** [a || b] *)
Definition or (a b : value) : value := if truthy a then a else b.

(** Property names that every plain object literal inherits from
    [Object.prototype]. *)
Definition Object_prototype : list string :=
  [ "constructor"; "__defineGetter__"; "__defineSetter__"; "hasOwnProperty";
    "__lookupGetter__"; "__lookupSetter__"; "isPrototypeOf";
    "propertyIsEnumerable"; "toString"; "valueOf"; "__proto__";
    "toLocaleString" ]%string.

(** [obj[key]] for an object literal whose own properties are the
    string-valued map [own]: own properties first, then the prototype. *)
Definition get (own : gmap string string) (key : string) : value :=
  match own !! key with
  | Some s => JString s
  | None => if bool_decide (key ∈ Object_prototype) then JObject else JUndefined
  end.

(** A JavaScript string: a sequence of UTF-16 code units. *)
Definition jsstring := list Z.

(** [s.slice(0, n)] for [0 <= n]. *)
Definition slice0 (n : nat) (s : jsstring) : jsstring := take n s.

End JS.

(** ** UTF-8 and UTF-16, as used by [Buffer.prototype.toString] and by
    [WebSocket.prototype.send] on a string *)

Module Utf.

Definition REPLACEMENT : Z := 0xFFFD.

(** A partially decoded multi-byte sequence: the bits gathered so far,
    the number of continuation bytes still expected, and the range that
    the next continuation byte must lie in. *)
Record pending := Pending { bits : Z; need : nat; lower : Z; upper : Z }.

Definition between (lo x hi : Z) : bool := (lo <=? x) && (x <=? hi).

(** A byte read when no sequence is pending. *)
Definition lead (b : Z) : list Z * option pending :=
  if between 0x00 b 0x7F then ([b], None)
  else if between 0xC2 b 0xDF then
    ([], Some (Pending (Z.land b 0x1F) 1 0x80 0xBF))
  else if between 0xE0 b 0xEF then
    ([], Some (Pending (Z.land b 0x0F) 2
                 (if b =? 0xE0 then 0xA0 else 0x80)
                 (if b =? 0xED then 0x9F else 0xBF)))
  else if between 0xF0 b 0xF4 then
    ([], Some (Pending (Z.land b 0x07) 3
                 (if b =? 0xF0 then 0x90 else 0x80)
                 (if b =? 0xF4 then 0x8F else 0xBF)))
  else ([REPLACEMENT], None).

(** The UTF-8 decoder with replacement: every ill-formed maximal subpart
    yields one U+FFFD, and the byte that broke a sequence is read again
    as the start of the next one. *)
Fixpoint decode (st : option pending) (bs : list Z) : list Z :=
  match bs with
  | [] => match st with None => [] | Some _ => [REPLACEMENT] end
  | b :: rest =>
      match st with
      | None => (lead b).1 ++ decode (lead b).2 rest
      | Some p =>
          if between (lower p) b (upper p) then
            let bits' := Z.lor (Z.shiftl (bits p) 6) (Z.land b 0x3F) in
            match need p with
            | S (S n) => decode (Some (Pending bits' (S n) 0x80 0xBF)) rest
            | _ => bits' :: decode None rest
            end
          else REPLACEMENT :: (lead b).1 ++ decode (lead b).2 rest
      end
  end.

(** The UTF-16 code units of a code point. *)
Definition units (cp : Z) : list Z :=
  if cp <? 0x10000 then [cp]
  else [0xD800 + Z.shiftr (cp - 0x10000) 10;
        0xDC00 + Z.land (cp - 0x10000) 0x3FF].

(** [buf.toString()]: decode as UTF-8 into a JavaScript string. *)
Definition Buffer_toString (raw : list Z) : JS.jsstring :=
  flat_map units (decode None raw).

(** The UTF-8 bytes of a code point. *)
Definition bytes (cp : Z) : list Z :=
  if cp <? 0x80 then [cp]
  else if cp <? 0x800 then
    [Z.lor 0xC0 (Z.shiftr cp 6); Z.lor 0x80 (Z.land cp 0x3F)]
  else if cp <? 0x10000 then
    [Z.lor 0xE0 (Z.shiftr cp 12);
     Z.lor 0x80 (Z.land (Z.shiftr cp 6) 0x3F);
     Z.lor 0x80 (Z.land cp 0x3F)]
  else
    [Z.lor 0xF0 (Z.shiftr cp 18);
     Z.lor 0x80 (Z.land (Z.shiftr cp 12) 0x3F);
     Z.lor 0x80 (Z.land (Z.shiftr cp 6) 0x3F);
     Z.lor 0x80 (Z.land cp 0x3F)].

Definition high_surrogate (u : Z) : bool := between 0xD800 u 0xDBFF.
Definition low_surrogate (u : Z) : bool := between 0xDC00 u 0xDFFF.

(** [Buffer.from(str, "utf8")]: surrogate pairs are combined, a lone
    surrogate is written as U+FFFD. *)
Fixpoint Buffer_from (s : JS.jsstring) : list Z :=
  match s with
  | [] => []
  | u :: rest =>
      if high_surrogate u then
        match rest with
        | v :: rest' =>
            if low_surrogate v then
              bytes (0x10000 + (u - 0xD800) * 0x400 + (v - 0xDC00))
                ++ Buffer_from rest'
            else bytes REPLACEMENT ++ Buffer_from rest
        | [] => bytes REPLACEMENT
        end
      else if low_surrogate u then bytes REPLACEMENT ++ Buffer_from rest
      else bytes u ++ Buffer_from rest
  end.

(** Unicode scalar values, and the UTF-8 encoding of a sequence of them:
    the well-formed byte sequences are exactly the images of [encode]. *)
Definition scalar (cp : Z) : Prop :=
  0 <= cp <= 0x10FFFF /\ ~ (0xD800 <= cp <= 0xDFFF).

Definition encode (cps : list Z) : list Z := flat_map bytes cps.

Definition well_formed (bs : list Z) : Prop :=
  exists cps, Forall scalar cps /\ bs = encode cps.

(** What a pending sequence promises: whichever continuation bytes the
    decoder accepts from here on, the code point it ends with is a scalar
    value. *)
Fixpoint completes (n : nat) (bits lo hi : Z) : Prop :=
  match n with
  | S (S _ as m) =>
      forall b, between lo b hi = true ->
                completes m (bits * 64 + b mod 64) 0x80 0xBF
  | _ => forall b, between lo b hi = true -> scalar (bits * 64 + b mod 64)
  end.

Definition promising (st : option pending) : Prop :=
  match st with
  | Some p => completes (need p) (bits p) (lower p) (upper p)
  | None => True
  end.

Definition ascii (bs : list Z) : Prop := Forall (fun b => 0 <= b <= 0x7F) bs.

End Utf.


(** ** Line 31: [const PORT = process.env.PORT || 8080] *)

Module Port.

(** [process.env] holds strings only; a variable that is not set reads as
    [undefined]. *)
Definition PORT (env : gmap string string) : JS.value :=
  JS.or (JS.get env "PORT") (JS.JNumber 8080).

(** *** Line 113: [httpServer.listen(PORT, ...)]

    What Node's [listen] makes of its first argument when that is a
    number or a string, the two things [PORT] can be.  A string that
    [Number] turns into NaN or into a negative number is taken for the
    path of a pipe; any other argument is a port and goes through
    [validatePort], which throws unless it is an integer from 0 to 65535
    (and, for a string, not blank); port 0 asks the operating system for
    any free port. *)
Inductive listening :=
| OnPort (n : Z)
| OnAnyPort
| OnPipe (path : string)
| BadPort.

(** The number that [Number(s)] is, as far as [listen] looks at it. *)
Inductive number :=
| NaN
| Whole (n : Z)
| Fraction (negative : bool).

Definition digit (c : ascii) : option Z :=
  let n := Z.of_nat (nat_of_ascii c) in
  if (48 <=? n) && (n <=? 57) then Some (n - 48) else None.

Fixpoint decimal_from (acc : Z) (s : string) : option Z :=
  match s with
  | EmptyString => Some acc
  | String c rest =>
      match digit c with
      | Some d => decimal_from (acc * 10 + d) rest
      | None => None
      end
  end.

(** The value of a non-empty run of decimal digits. *)
Definition decimal (s : string) : option Z :=
  match s with
  | EmptyString => None
  | _ => decimal_from 0 s
  end.

Section Listen.

(** [Number(s)] and the blankness of [s.trim()] on the strings that are
    not plain decimal numerals below 2^53 (signs, fractions, exponents,
    hexadecimal, white space, long numerals that are rounded): JavaScript
    built-ins, taken as they come. *)
Variable Number_rest : string → number.
Variable blank : string → bool.

Definition Number (s : string) : number :=
  match decimal s with
  | Some n => if n <=? 2 ^ 53 then Whole n else Number_rest s
  | None => Number_rest s
  end.

Definition trim_is_empty (s : string) : bool :=
  match decimal s with
  | Some _ => false
  | None => blank s
  end.

Definition validatePort (n : Z) : listening :=
  if (0 <=? n) && (n <=? 0xFFFF)
  then (if n =? 0 then OnAnyPort else OnPort n)
  else BadPort.

Definition listen (port : JS.value) : option listening :=
  match port with
  | JS.JNumber n => Some (validatePort n)
  | JS.JString s =>
      Some match Number s with
           | NaN => OnPipe s
           | Fraction true => OnPipe s
           | Fraction false => BadPort
           | Whole n =>
               if n <? 0 then OnPipe s
               else if trim_is_empty s then BadPort
               else validatePort n
           end
  | _ => None
  end.

End Listen.

End Port.

(** ** The HTTP server of lines 37-73 *)

Module Http.

Definition ROUTES : gmap string string :=
  list_to_map
    [ ("/", "auto.html"); ("/auto", "auto.html"); ("/sender", "sender.html");
      ("/receiver", "receiver.html") ]%string.

Definition MIME_TYPES : gmap string string :=
  list_to_map
    [ (".html", "text/html"); (".js", "application/javascript");
      (".css", "text/css") ]%string.

Inductive body :=
| Text (s : string)
| File (data : list Z).

(** [res.writeHead(status, { "Content-Type": ... })] then [res.end(...)]. *)
Record response := Response {
  status : Z;
  content_type : JS.value;
  content : body
}.

Inductive result :=
| Responded (r : response)
| Uncaught (err : string).

Fixpoint take_while {A} (f : A → bool) (l : list A) : list A :=
  match l with
  | [] => []
  | x :: l' => if f x then x :: take_while f l' else []
  end.

Fixpoint drop_while {A} (f : A → bool) (l : list A) : list A :=
  match l with
  | [] => []
  | x :: l' => if f x then drop_while f l' else l
  end.

Definition is_slash (c : ascii) : bool := Ascii.eqb c "/".
Definition is_dot (c : ascii) : bool := Ascii.eqb c ".".

(** [path.extname]: the text from the last dot of the last path component
    on; empty when that component has no dot, starts with its only dot,
    or is [..].  The scan runs from the end of the path, as Node's does:
    trailing slashes are skipped and the component ends at the next
    slash. *)
Definition path_extname (path : string) : string :=
  let component :=
    take_while (λ c, negb (is_slash c))
      (drop_while is_slash (reverse (list_ascii_of_string path))) in
  let suffix := take_while (λ c, negb (is_dot c)) component in
  match drop_while (λ c, negb (is_dot c)) component with
  | [] => ""
  | _ :: [] => ""
  | dot :: stem =>
      if bool_decide (suffix = []) && bool_decide (stem = [dot])
      then ""
      else string_of_list_ascii (reverse (suffix ++ [dot]))
  end.

(** [path.join(dir, file)] for a normalized directory and a plain file
    name, which is what [__dirname] and the values of [ROUTES] are: the
    two are joined by one slash and nothing is left to normalize. *)
Definition path_join (dir file : string) : string :=
  match reverse (list_ascii_of_string dir) with
  | c :: _ => if is_slash c then dir +:+ file else dir +:+ "/" +:+ file
  | [] => file
  end.

Definition is_alpha (c : ascii) : bool :=
  let n := nat_of_ascii c in
  ((65 <=? n) && (n <=? 90) || (97 <=? n) && (n <=? 122))%nat.

Fixpoint after_scheme (s : string) : bool :=
  match s with
  | String c rest =>
      if is_alpha c then after_scheme rest else String.prefix "://" s
  | EmptyString => false
  end.

(** A request target as the HTTP parser of Node hands it over in
    [req.url]: origin form ([/path]), asterisk form, or absolute form
    ([scheme://...]). *)
Definition request_target (url : string) : bool :=
  match url with
  | String c rest =>
      if is_slash c || Ascii.eqb c "*" then true
      else is_alpha c && after_scheme rest
  | EmptyString => false
  end.

Section Handler.

(** [__dirname], and the outcome of [fs.readFile] on each path: the data,
    or [None] when the callback receives an error. *)
Variable dirname : string.
Variable readFile : string → option (list Z).

(** Lines 50-73.  [path.join] throws on an argument that is not a
    string. *)
Definition request_handler (url : string) : result :=
  let fileName := JS.get ROUTES url in
  if negb (JS.truthy fileName) then
    Responded (Response 404 (JS.JString "text/plain") (Text "404 — Not Found"))
  else
    match fileName with
    | JS.JString fileName =>
        let filePath := path_join dirname fileName in
        match readFile filePath with
        | None =>
            Responded (Response 500 (JS.JString "text/plain")
                         (Text "500 — Internal Server Error"))
        | Some data =>
            let ext := path_extname filePath in
            let contentType :=
              JS.or (JS.get MIME_TYPES ext)
                    (JS.JString "application/octet-stream") in
            Responded (Response 200 contentType (File data))
        end
    | _ => Uncaught "ERR_INVALID_ARG_TYPE"
    end.

End Handler.

End Http.

(** ** The relay: [wss], [clients] and the handlers of lines 79-107 *)

Module Relay.

(** A [WebSocket] object, identified by the order in which the library
    created it. *)
Definition endpoint := nat.

(** *** [new Set()]: insertion order, no duplicates *)

Definition Set_add (x : endpoint) (s : list endpoint) : list endpoint :=
  if bool_decide (x ∈ s) then s else s ++ [x].

Definition Set_delete (x : endpoint) (s : list endpoint) : list endpoint :=
  filter (λ y, y ≠ x) s.

Definition Set_size (s : list endpoint) : nat := length s.

(** *** What the process writes *)

Inductive log_line :=
| LogConnected (total : nat)        (* [ws] Client connected (total: n) *)
| LogRelaying (preview : JS.jsstring) (* [ws] Relaying: ... *)
| LogDisconnected (total : nat)     (* [ws] Client disconnected (total: n) *)
| LogError (message : string).      (* [ws] Error: ... *)

(** One [client.send(message)] call that reached the socket, and whether
    the write to the peer went through.  A failed write is reported by the
    library later, through the destination's own events. *)
Inductive fate := Written | Lost.

Record sent := Sent { dest : endpoint; data : JS.jsstring; outcome : fate }.

Global Instance fate_eq_dec : EqDecision fate.
Proof. solve_decision. Defined.

(** The frame that [send] puts on the wire for a string argument: a text
    frame ([binary: typeof data !== "string"]) holding its UTF-8 bytes. *)
Record frame := Frame { binary : bool; payload : list Z }.

Definition frame_of (m : sent) : frame :=
  Frame false (Utf.Buffer_from (data m)).

(** *** The state of the process and of the sockets it holds *)

Record world := World {
  clients : list endpoint;            (* const clients = new Set() *)
  readyState : gmap endpoint Z;       (* ws.readyState of every socket *)
  failing : gset endpoint;            (* sockets whose next writes are lost *)
  on_message : list endpoint;         (* ws.on("message", ...) registrations *)
  on_close : list endpoint;           (* ws.on("close", ...) registrations *)
  on_error : list endpoint;           (* ws.on("error", ...) registrations *)
  console : list log_line;
  wire : list sent
}.

Definition initial : world := World [] ∅ ∅ [] [] [] [] [].

(** *** Handlers run in a state-and-exception monad *)

Inductive completion (A : Type) :=
| Normal (a : A)
| Throw (err : string).
Arguments Normal {A} a.
Arguments Throw {A} err.

Definition js (A : Type) : Type := world → completion A * world.

Global Instance js_ret : MRet js := λ A a w, (Normal a, w).

Global Instance js_bind : MBind js := λ A B k m w,
  match m w with
  | (Normal a, w') => k a w'
  | (Throw e, w') => (Throw e, w')
  end.

(** [for (const x of xs) body(x)]; an exception leaves the loop. *)
Fixpoint for_of {A} (xs : list A) (body : A → js ()) : js () :=
  match xs with
  | [] => mret ()
  | x :: xs' => body x ;; for_of xs' body
  end.

(** *** Primitives *)

Definition console_log (l : log_line) : js () := λ w,
  (Normal (),
   World (clients w) (readyState w) (failing w) (on_message w) (on_close w)
         (on_error w) (console w ++ [l]) (wire w)).

Definition clients_add (ws : endpoint) : js () := λ w,
  (Normal (),
   World (Set_add ws (clients w)) (readyState w) (failing w) (on_message w)
         (on_close w) (on_error w) (console w) (wire w)).

Definition clients_delete (ws : endpoint) : js () := λ w,
  (Normal (),
   World (Set_delete ws (clients w)) (readyState w) (failing w) (on_message w)
         (on_close w) (on_error w) (console w) (wire w)).

Definition clients_size : js nat := λ w, (Normal (Set_size (clients w)), w).

Definition clients_values : js (list endpoint) := λ w, (Normal (clients w), w).

Definition get_readyState (ws : endpoint) : js (option Z) := λ w,
  (Normal (readyState w !! ws), w).

Definition ws_on_message (ws : endpoint) : js () := λ w,
  (Normal (),
   World (clients w) (readyState w) (failing w) (on_message w ++ [ws])
         (on_close w) (on_error w) (console w) (wire w)).

Definition ws_on_close (ws : endpoint) : js () := λ w,
  (Normal (),
   World (clients w) (readyState w) (failing w) (on_message w)
         (on_close w ++ [ws]) (on_error w) (console w) (wire w)).

Definition ws_on_error (ws : endpoint) : js () := λ w,
  (Normal (),
   World (clients w) (readyState w) (failing w) (on_message w) (on_close w)
         (on_error w ++ [ws]) (console w) (wire w)).

(** [client.send(data)] of the ws library, called without a callback: it
    throws on a socket that is still connecting, hands the frame to the
    socket when open, and drops the data on a closing or closed socket. *)
Definition ws_send (client : endpoint) (message : JS.jsstring) : js () := λ w,
  match readyState w !! client with
  | Some 0 => (Throw "WebSocket is not open: readyState 0 (CONNECTING)", w)
  | Some 1 =>
      (Normal (),
       World (clients w) (readyState w) (failing w) (on_message w) (on_close w)
             (on_error w) (console w)
             (wire w ++ [Sent client message
                           (if bool_decide (client ∈ failing w)
                            then Lost else Written)]))
  | _ => (Normal (), w)
  end.

(** *** The handlers *)

Definition ELLIPSIS : JS.jsstring := [0x2026].

(** Lines 86-97. *)
Definition message_handler (ws : endpoint) (raw : list Z) : js () :=
  let message := Utf.Buffer_toString raw in
  let preview :=
    if (80 <? length message)%nat
    then JS.slice0 80 message ++ ELLIPSIS else message in
  console_log (LogRelaying preview) ;;
  cs ← clients_values ;
  for_of cs (λ client,
    rs ← get_readyState client ;
    if bool_decide (client ≠ ws) && bool_decide (rs = Some 1)
    then ws_send client message
    else mret ()).

(** Lines 99-102. *)
Definition close_handler (ws : endpoint) : js () :=
  clients_delete ws ;;
  n ← clients_size ;
  console_log (LogDisconnected n).

(** Lines 104-106. *)
Definition error_handler (ws : endpoint) (message : string) : js () :=
  console_log (LogError message).

(** Lines 82-107. *)
Definition connection_handler (ws : endpoint) : js () :=
  clients_add ws ;;
  n ← clients_size ;
  console_log (LogConnected n) ;;
  ws_on_message ws ;;
  ws_on_close ws ;;
  ws_on_error ws.

(** *** The event loop

    What the ws library and the transport do to the process: the library
    creates an open socket and emits [connection]; it emits [message],
    [error] and [close] on a socket, having marked the socket closed before
    [close]; the transport moves a socket to another [readyState]
    (closing, say) or starts losing writes without any event being
    emitted yet. *)

Inductive event :=
| Connection (ws : endpoint)
| Message (ws : endpoint) (raw : list Z) (isBinary : bool)
| Close (ws : endpoint)
| Error (ws : endpoint) (message : string)
| ReadyState (ws : endpoint) (state : Z)
| Failing (ws : endpoint).

Global Instance event_eq_dec : EqDecision event.
Proof. solve_decision. Defined.

Definition set_readyState (ws : endpoint) (state : Z) : js () := λ w,
  (Normal (),
   World (clients w) (<[ws := state]> (readyState w)) (failing w)
         (on_message w) (on_close w) (on_error w) (console w) (wire w)).

Definition set_failing (ws : endpoint) : js () := λ w,
  (Normal (),
   World (clients w) (readyState w) ({[ws]} ∪ failing w) (on_message w)
         (on_close w) (on_error w) (console w) (wire w)).

(** The listeners that [ws.emit] calls: one per registration on [ws]. *)
Definition listeners (registered : list endpoint) (ws : endpoint)
  : list endpoint :=
  filter (λ x, x = ws) registered.

(** [ws.emit(name)]: every listener registered for the event on that
    socket runs in turn. *)
Definition emit (registered : world → list endpoint) (ws : endpoint)
    (handler : js ()) : js () := λ w,
  for_of (listeners (registered w) ws) (λ _, handler) w.

(** [ws.emit("error", err)]: with no listener for it, [emit] throws [err]
    itself, the Error whose message the event carries. *)
Definition emit_error (ws : endpoint) (message : string) (handler : js ())
  : js () := λ w,
  match listeners (on_error w) ws with
  | [] => (Throw message, w)
  | _ => emit on_error ws handler w
  end.

Definition step (e : event) : js () :=
  match e with
  | Connection ws =>
      set_readyState ws 1 ;;
      connection_handler ws
  | Message ws raw _ => emit on_message ws (message_handler ws raw)
  | Close ws =>
      set_readyState ws 3 ;;
      emit on_close ws (close_handler ws)
  | Error ws message => emit_error ws message (error_handler ws message)
  | ReadyState ws state => set_readyState ws state
  | Failing ws => set_failing ws
  end.

(** The process handles the events one after the other; an exception
    that leaves a handler ends it. *)
Definition run (evs : list event) : js () := for_of evs step.

(** The state after [evs], started from the empty registry. *)
Definition after (evs : list event) : world := (run evs initial).2.

(** *** The order in which the library emits events on one socket

    [connection] comes first and once, [close] last and once, [message]
    and [error] only in between. *)

Inductive phase := Connected | Closed.

Global Instance phase_eq_dec : EqDecision phase.
Proof. solve_decision. Defined.

Definition allowed (ph : gmap endpoint phase) (e : event) : bool :=
  match e with
  | Connection ws => bool_decide (ph !! ws = None)
  | Message ws _ _ => bool_decide (ph !! ws = Some Connected)
  | Error ws _ => bool_decide (ph !! ws = Some Connected)
  | Close ws => bool_decide (ph !! ws = Some Connected)
  | ReadyState _ _ => true
  | Failing _ => true
  end.

Definition phase_step (ph : gmap endpoint phase) (e : event)
  : gmap endpoint phase :=
  match e with
  | Connection ws => <[ws := Connected]> ph
  | Close ws => <[ws := Closed]> ph
  | _ => ph
  end.

Fixpoint lifecycle_from (ph : gmap endpoint phase) (evs : list event) : bool :=
  match evs with
  | [] => true
  | e :: evs' => allowed ph e && lifecycle_from (phase_step ph e) evs'
  end.

Definition lifecycle (evs : list event) : bool := lifecycle_from ∅ evs.

(** *** Reading the wire *)

(** The [send] calls that handling [e] in [w] adds to the wire. *)
Definition delivered (e : event) (w : world) : list sent :=
  drop (length (wire w)) (wire (step e w).2).

(** What was sent to [d], in the order it was sent. *)
Definition inbox (d : endpoint) (t : list sent) : list sent :=
  filter (λ m, dest m = d) t.

(** The destinations that the loop of lines 92-96 sends to. *)
Definition recipients (ws : endpoint) (w : world) : list endpoint :=
  filter (λ c, c ≠ ws ∧ readyState w !! c = Some 1) (clients w).

Definition fate_of (w : world) (c : endpoint) : fate :=
  if bool_decide (c ∈ failing w) then Lost else Written.

(** The world after [t] more records went onto the wire, and after one
    more console line. *)
Definition push (t : list sent) (w : world) : world :=
  World (clients w) (readyState w) (failing w) (on_message w) (on_close w)
        (on_error w) (console w) (wire w ++ t).

Definition logged (l : log_line) (w : world) : world :=
  World (clients w) (readyState w) (failing w) (on_message w) (on_close w)
        (on_error w) (console w ++ [l]) (wire w).

(** The records that one run of the message handler adds. *)
Definition relayed (ws : endpoint) (raw : list Z) (w : world) : list sent :=
  (λ c, Sent c (Utf.Buffer_toString raw) (fate_of w c)) <$> recipients ws w.

Definition preview_of (message : JS.jsstring) : JS.jsstring :=
  if (80 <? length message)%nat
  then JS.slice0 80 message ++ ELLIPSIS else message.

(** The phases that a run of events leaves the sockets in, and what
    they say about the world: the Set holds the connected sockets, once
    each, and every socket that ever connected has its three listeners. *)
Definition phases (evs : list event) : gmap endpoint phase :=
  foldl phase_step ∅ evs.

Definition registered_once (ph : gmap endpoint phase) (l : list endpoint)
  : Prop :=
  ∀ ws, listeners l ws = match ph !! ws with Some _ => [ws] | None => [] end.

Record consistent (ph : gmap endpoint phase) (w : world) : Prop := Consistent {
  cons_nodup : NoDup (clients w);
  cons_clients : ∀ ws, ws ∈ clients w ↔ ph !! ws = Some Connected;
  cons_message : registered_once ph (on_message w);
  cons_close : registered_once ph (on_close w);
  cons_error : registered_once ph (on_error w)
}.

(** The sockets that the [connection] events of a run brought, and the
    sockets that its [close] events took away, in the order of the
    events. *)
Definition connections (evs : list event) : list endpoint :=
  flat_map (λ e, match e with Connection ws => [ws] | _ => [] end) evs.

Definition closings (evs : list event) : list endpoint :=
  flat_map (λ e, match e with Close ws => [ws] | _ => [] end) evs.

End Relay.

(** * Properties *)

(** ** UTF-8 and UTF-16 round trips *)

Module UtfFacts.
Import Utf.

Local Ltac Zify.zify_post_hook ::= Z.to_euclidean_division_equations.

(** *** Bit operations as arithmetic *)

Lemma lor_disjoint (a b n : Z) :
  0 <= n -> 0 <= b < 2 ^ n -> Z.lor (a * 2 ^ n) b = a * 2 ^ n + b.
Proof.
  intros Hn Hb. symmetry. apply Z.add_nocarry_lor.
  assert (b = Z.land (Z.ones n) b) as ->.
  { rewrite Z.land_comm, Z.land_ones, Z.mod_small; lia. }
  rewrite Z.land_assoc, Z.land_ones by lia.
  rewrite Z.mod_mul by lia. apply Z.land_0_l.
Qed.

Lemma land_low (x n : Z) : 0 <= n -> Z.land x (2 ^ n - 1) = x mod 2 ^ n.
Proof. intros. rewrite <-Z.land_ones by done. f_equal. rewrite Z.ones_equiv. lia. Qed.

Lemma lor_80 (y : Z) : 0 <= y < 64 -> Z.lor 0x80 y = 128 + y.
Proof. intros. apply (lor_disjoint 2 y 6); lia. Qed.
Lemma lor_C0 (y : Z) : 0 <= y < 64 -> Z.lor 0xC0 y = 192 + y.
Proof. intros. apply (lor_disjoint 3 y 6); lia. Qed.
Lemma lor_E0 (y : Z) : 0 <= y < 32 -> Z.lor 0xE0 y = 224 + y.
Proof. intros. apply (lor_disjoint 7 y 5); lia. Qed.
Lemma lor_F0 (y : Z) : 0 <= y < 16 -> Z.lor 0xF0 y = 240 + y.
Proof. intros. apply (lor_disjoint 15 y 4); lia. Qed.

Lemma land_3F (x : Z) : Z.land x 0x3F = x mod 64.
Proof. apply (land_low x 6). lia. Qed.
Lemma land_1F (x : Z) : Z.land x 0x1F = x mod 32.
Proof. apply (land_low x 5). lia. Qed.
Lemma land_0F (x : Z) : Z.land x 0x0F = x mod 16.
Proof. apply (land_low x 4). lia. Qed.
Lemma land_07 (x : Z) : Z.land x 0x07 = x mod 8.
Proof. apply (land_low x 3). lia. Qed.
Lemma land_3FF (x : Z) : Z.land x 0x3FF = x mod 1024.
Proof. apply (land_low x 10). lia. Qed.

Lemma continuation (bits b : Z) :
  Z.lor (Z.shiftl bits 6) (Z.land b 0x3F) = bits * 64 + b mod 64.
Proof.
  intros. rewrite land_3F, Z.shiftl_mul_pow2 by lia.
  apply (lor_disjoint bits (b mod 64) 6); lia.
Qed.

Lemma bytes_arith (cp : Z) :
  0 <= cp <= 0x10FFFF ->
  bytes cp =
  if cp <? 0x80 then [cp]
  else if cp <? 0x800 then [192 + cp / 64; 128 + cp mod 64]
  else if cp <? 0x10000 then
    [224 + cp / 4096; 128 + (cp / 64) mod 64; 128 + cp mod 64]
  else [240 + cp / 262144; 128 + (cp / 4096) mod 64;
        128 + (cp / 64) mod 64; 128 + cp mod 64].
Proof.
  intros Hcp. unfold bytes.
  rewrite !Z.shiftr_div_pow2, !land_3F by lia.
  change (2 ^ 6) with 64. change (2 ^ 12) with 4096. change (2 ^ 18) with 262144.
  repeat case_match; rewrite ?lor_80, ?lor_C0, ?lor_E0, ?lor_F0 by lia; done.
Qed.

Ltac between_by b :=
  symmetry; unfold between;
  match goal with
  | |- (?a <=? ?x) && (?x <=? ?c) = _ =>
      destruct (Z.leb_spec a x), (Z.leb_spec x c);
      first [reflexivity | exfalso; lia]
  end.

Ltac between_tac :=
  repeat match goal with
  | |- context [between ?a ?x ?b] =>
      first [ replace (between a x b) with true by between_by true
            | replace (between a x b) with false by between_by false ]
  end.

Ltac decode_step :=
  between_tac; rewrite ?continuation;
  cbn [decode need lower upper bits fst snd app].

Lemma decode_bytes (cp : Z) (rest : list Z) :
  scalar cp -> decode None (bytes cp ++ rest) = cp :: decode None rest.
Proof.
  intros [Hr Hs]. rewrite bytes_arith by done.
  destruct (Z.ltb_spec cp 0x80).
  { simpl. unfold lead. between_tac. done. }
  destruct (Z.ltb_spec cp 0x800).
  { cbn [app decode]. unfold lead at 1 2.
    do 2 decode_step. rewrite land_1F. f_equal. lia. }
  destruct (Z.ltb_spec cp 0x10000).
  { cbn [app decode]. unfold lead at 1 2.
    decode_step. rewrite land_0F.
    destruct (Z.eqb_spec (224 + cp / 4096) 0xE0),
      (Z.eqb_spec (224 + cp / 4096) 0xED); try lia;
      do 3 decode_step; f_equal; lia. }
  cbn [app decode]. unfold lead at 1 2.
  decode_step. rewrite land_07.
  destruct (Z.eqb_spec (240 + cp / 262144) 0xF0),
    (Z.eqb_spec (240 + cp / 262144) 0xF4); try lia;
    do 4 decode_step; f_equal; lia.
Qed.

Lemma decode_encode (cps : list Z) :
  Forall scalar cps -> decode None (encode cps) = cps.
Proof.
  induction 1 as [|cp cps Hcp _ IH]; [done|].
  unfold encode in *. simpl. by rewrite decode_bytes, IH.
Qed.

Lemma Buffer_from_units (cp : Z) (s : JS.jsstring) :
  scalar cp -> Buffer_from (units cp ++ s) = bytes cp ++ Buffer_from s.
Proof.
  intros [Hr Hs]. unfold units.
  destruct (Z.ltb_spec cp 0x10000).
  - cbn [app Buffer_from]. unfold high_surrogate, low_surrogate.
    between_tac. done.
  - rewrite land_3FF, Z.shiftr_div_pow2 by lia. change (2 ^ 10) with 1024.
    cbn [app Buffer_from]. unfold high_surrogate, low_surrogate.
    between_tac. do 2 f_equal. lia.
Qed.

Lemma Buffer_from_toString (raw : list Z) :
  well_formed raw -> Buffer_from (Buffer_toString raw) = raw.
Proof.
  intros (cps & Hcps & ->). unfold Buffer_toString.
  rewrite decode_encode by done. unfold encode.
  induction Hcps as [|cp cps Hcp _ IH]; [done|].
  simpl. by rewrite Buffer_from_units, IH.
Qed.

End UtfFacts.

(** ** The relay *)

Module RelayFacts.
Import Relay.

(** *** Loops and sequencing *)

Lemma for_of_app {A} (xs ys : list A) (body : A → js ()) (w : world) :
  for_of (xs ++ ys) body w =
  match for_of xs body w with
  | (Normal _, w') => for_of ys body w'
  | (Throw e, w') => (Throw e, w')
  end.
Proof.
  revert w. induction xs as [|x xs IH]; intros w; simpl.
  - reflexivity.
  - unfold mbind, js_bind. destruct (body x w) as [[[]|e] w']; [apply IH|done].
Qed.

(** A component of the world that the body of a loop leaves alone is
    left alone by the loop. *)
Lemma for_of_frame {A B} (f : world → B) (xs : list A) (body : A → js ()) :
  (∀ x w, f (body x w).2 = f w) → ∀ w, f (for_of xs body w).2 = f w.
Proof.
  intros Hbody. induction xs as [|x xs IH]; intros w; simpl; [done|].
  unfold mbind, js_bind. specialize (Hbody x w).
  destruct (body x w) as [[[]|e] w']; simpl in *; [by rewrite IH|done].
Qed.

(** An exception thrown by the body ends the loop there: the remaining
    elements are not visited. *)
Lemma for_of_throw {A} (x : A) (xs : list A) (body : A → js ()) (w w' : world)
    (err : string) :
  body x w = (Throw err, w') → for_of (x :: xs) body w = (Throw err, w').
Proof. intros H. simpl. unfold mbind, js_bind. by rewrite H. Qed.

(** The one exception that [send] can throw: the socket is still
    connecting.  The test [client.readyState === 1] of line 93 keeps the
    loop away from it. *)
Lemma ws_send_connecting (client : endpoint) (message : JS.jsstring)
    (w : world) :
  readyState w !! client = Some 0 →
  ws_send client message w
  = (Throw "WebSocket is not open: readyState 0 (CONNECTING)", w).
Proof. intros H. unfold ws_send. by rewrite H. Qed.

Lemma push_push (t1 t2 : list sent) (w : world) :
  push t2 (push t1 w) = push (t1 ++ t2) w.
Proof. unfold push; simpl. by rewrite <-(assoc_L (++)). Qed.

Lemma push_nil (w : world) : push [] w = w.
Proof. destruct w; unfold push; simpl. by rewrite (right_id_L [] (++)). Qed.

(** *** The broadcast loop of lines 92-96 *)

Lemma broadcast_loop (ws : endpoint) (message : JS.jsstring)
    (cs : list endpoint) (w : world) :
  for_of cs (λ client,
    rs ← get_readyState client ;
    if bool_decide (client ≠ ws) && bool_decide (rs = Some 1)
    then ws_send client message
    else mret ()) w
  = (Normal (),
     push ((λ c, Sent c message (fate_of w c))
             <$> filter (λ c, c ≠ ws ∧ readyState w !! c = Some 1) cs) w).
Proof.
  revert w. induction cs as [|c cs IH]; intros w.
  - simpl. by rewrite push_nil.
  - cbn [for_of]. unfold mbind at 1, js_bind at 1.
    unfold mbind at 1, js_bind at 1, get_readyState at 1.
    rewrite filter_cons.
    destruct (decide (c ≠ ws ∧ readyState w !! c = Some 1)) as [[Hne Hrs]|Hno].
    + rewrite (bool_decide_eq_true_2 _ Hne), (bool_decide_eq_true_2 _ Hrs).
      simpl. unfold ws_send at 1. rewrite Hrs.
      rewrite IH. f_equal. unfold push, fate_of; simpl.
      by rewrite <-(assoc_L (++)).
    + assert (bool_decide (c ≠ ws) && bool_decide (readyState w !! c = Some 1)
              = false) as ->.
      { apply andb_false_iff.
        destruct (decide (c ≠ ws)); [right|left]; apply bool_decide_eq_false_2;
          intuition congruence. }
      unfold mret at 1, js_ret at 1. apply IH.
Qed.

Lemma message_handler_spec (ws : endpoint) (raw : list Z) (w : world) :
  message_handler ws raw w =
  (Normal (),
   push (relayed ws raw w)
        (logged (LogRelaying (preview_of (Utf.Buffer_toString raw))) w)).
Proof.
  unfold message_handler.
  unfold mbind at 1, js_bind at 1, console_log at 1.
  unfold mbind at 1, js_bind at 1, clients_values at 1.
  cbn [fst snd clients]. rewrite broadcast_loop. reflexivity.
Qed.

(** *** One event, in any world *)

Lemma Set_delete_idemp (x : endpoint) (s : list endpoint) :
  Set_delete x (Set_delete x s) = Set_delete x s.
Proof.
  unfold Set_delete. induction s as [|y s IH]; [done|].
  rewrite filter_cons. destruct (decide (y ≠ x)); [|done].
  rewrite filter_cons, decide_True by done. by f_equal.
Qed.

Lemma close_handler_spec (ws : endpoint) (w : world) :
  close_handler ws w =
  (Normal (),
   World (Set_delete ws (clients w)) (readyState w) (failing w) (on_message w)
         (on_close w) (on_error w)
         (console w ++ [LogDisconnected (Set_size (Set_delete ws (clients w)))])
         (wire w)).
Proof. reflexivity. Qed.

Lemma connection_handler_spec (ws : endpoint) (w : world) :
  connection_handler ws w =
  (Normal (),
   World (Set_add ws (clients w)) (readyState w) (failing w)
         (on_message w ++ [ws]) (on_close w ++ [ws]) (on_error w ++ [ws])
         (console w ++ [LogConnected (Set_size (Set_add ws (clients w)))])
         (wire w)).
Proof. reflexivity. Qed.

Lemma closes_clients (ws : endpoint) (l : list endpoint) (w : world) :
  clients (for_of l (λ _, close_handler ws) w).2 =
  match l with [] => clients w | _ => Set_delete ws (clients w) end.
Proof.
  revert w. induction l as [|x l IH]; intros w; [done|].
  cbn [for_of]. unfold mbind, js_bind. rewrite close_handler_spec.
  rewrite IH. simpl. destruct l; [done|apply Set_delete_idemp].
Qed.

Lemma step_clients (e : event) (w : world) :
  clients (step e w).2 =
  match e with
  | Connection ws => Set_add ws (clients w)
  | Close ws =>
      match listeners (on_close w) ws with
      | [] => clients w
      | _ => Set_delete ws (clients w)
      end
  | _ => clients w
  end.
Proof.
  destruct e as [ws|ws raw b|ws|ws m|ws st|ws]; try reflexivity.
  - unfold step, emit.
    apply (for_of_frame clients). intros _ w'.
    by rewrite message_handler_spec.
  - unfold step, emit. unfold mbind, js_bind, set_readyState.
    by rewrite closes_clients.
  - unfold step, emit_error, emit.
    destruct (listeners (on_error w) ws) eqn:E; [done|].
    by apply (for_of_frame clients).
Qed.

Lemma step_on_message (e : event) (w : world) :
  on_message (step e w).2 =
  match e with
  | Connection ws => on_message w ++ [ws]
  | _ => on_message w
  end.
Proof.
  destruct e as [ws|ws raw b|ws|ws m|ws st|ws]; try reflexivity.
  - unfold step, emit.
    apply (for_of_frame on_message). intros _ w'.
    by rewrite message_handler_spec.
  - unfold step, emit. unfold mbind, js_bind, set_readyState.
    etrans; [by apply (for_of_frame on_message)|done].
  - unfold step, emit_error, emit.
    destruct (listeners (on_error w) ws) eqn:E; [done|].
    by apply (for_of_frame on_message).
Qed.

(** The wire only grows, and what a loop adds is what its body adds. *)
Lemma for_of_wire {A} (P : sent → Prop) (xs : list A) (body : A → js ()) :
  (∀ x w, ∃ t, wire (body x w).2 = wire w ++ t ∧ Forall P t) →
  ∀ w, ∃ t, wire (for_of xs body w).2 = wire w ++ t ∧ Forall P t.
Proof.
  intros Hbody. induction xs as [|x xs IH]; intros w; simpl.
  - exists []. by rewrite (right_id_L [] (++)).
  - unfold mbind, js_bind. destruct (Hbody x w) as (t1 & Ht1 & HP1).
    destruct (body x w) as [[[]|e] w']; simpl in *; [|by eauto].
    destruct (IH w') as (t2 & Ht2 & HP2). exists (t1 ++ t2).
    split; [|by apply Forall_app].
    by rewrite Ht2, Ht1, <-(assoc_L (++)).
Qed.

Lemma nothing_sent (w w' : world) (P : sent → Prop) :
  wire w' = wire w → ∃ t, wire w' = wire w ++ t ∧ Forall P t.
Proof. intros ->. exists []. by rewrite (right_id_L [] (++)). Qed.

Lemma message_wire (ws : endpoint) (raw : list Z) (b : bool) (w : world) :
  ∃ t, wire (step (Message ws raw b) w).2 = wire w ++ t
       ∧ Forall (λ m, data m = Utf.Buffer_toString raw) t.
Proof.
  unfold step, emit. apply for_of_wire. intros _ w'.
  rewrite message_handler_spec. simpl. eexists. split; [done|].
  unfold relayed. by apply Forall_fmap, Forall_true.
Qed.

Lemma step_wire (e : event) (w : world) :
  wire (step e w).2 = wire w ++ delivered e w.
Proof.
  assert (∃ t, wire (step e w).2 = wire w ++ t ∧ Forall (λ _, True) t)
    as (t & Ht & _).
  { destruct e as [ws|ws raw b|ws|ws m|ws st|ws];
      try (by apply nothing_sent).
    - destruct (message_wire ws raw b w) as (t & Ht & _).
      exists t. split; [done|by apply Forall_true].
    - unfold step, emit. unfold mbind, js_bind, set_readyState.
      match goal with |- ∃ t, wire (for_of ?l ?b ?w0).2 = _ ∧ _ =>
        destruct (for_of_wire (λ _, True) l b) with (w := w0)
          as (t & Ht & HP) end.
      { intros _ w'. by apply nothing_sent. }
      exists t. by rewrite Ht.
    - unfold step, emit_error, emit.
      destruct (listeners (on_error w) ws) eqn:E; [by apply nothing_sent|].
      apply for_of_wire. intros _ w'. by apply nothing_sent. }
  unfold delivered. rewrite Ht. by rewrite drop_app_length.
Qed.

(** *** One event, in a world that the library's event order led to *)

Lemma for_of_once (ws : endpoint) (h : js ()) (w w' : world) :
  h w = (Normal (), w') → for_of [ws] (λ _, h) w = (Normal (), w').
Proof. intros H. simpl. unfold mbind, js_bind. by rewrite H. Qed.

Lemma step_message (ws : endpoint) (raw : list Z) (b : bool) (w : world) :
  listeners (on_message w) ws = [ws] →
  step (Message ws raw b) w = message_handler ws raw w.
Proof.
  intros H. unfold step, emit. rewrite H.
  rewrite message_handler_spec. apply for_of_once, message_handler_spec.
Qed.

Lemma step_error (ws : endpoint) (m : string) (w : world) :
  listeners (on_error w) ws = [ws] →
  step (Error ws m) w = (Normal (), logged (LogError m) w).
Proof. intros H. unfold step, emit_error, emit. by rewrite H. Qed.

Lemma step_close (ws : endpoint) (w : world) :
  listeners (on_close w) ws = [ws] →
  step (Close ws) w =
  (Normal (),
   World (Set_delete ws (clients w)) (<[ws := 3]> (readyState w)) (failing w)
         (on_message w) (on_close w) (on_error w)
         (console w ++ [LogDisconnected (Set_size (Set_delete ws (clients w)))])
         (wire w)).
Proof.
  intros H. unfold step, emit. unfold mbind, js_bind, set_readyState.
  cbn [on_close]. by rewrite H.
Qed.

Lemma step_connection (ws : endpoint) (w : world) :
  ws ∉ clients w →
  step (Connection ws) w =
  (Normal (),
   World (clients w ++ [ws]) (<[ws := 1]> (readyState w)) (failing w)
         (on_message w ++ [ws]) (on_close w ++ [ws]) (on_error w ++ [ws])
         (console w ++ [LogConnected (S (length (clients w)))])
         (wire w)).
Proof.
  intros H. unfold step. unfold mbind at 1, js_bind at 1, set_readyState.
  rewrite connection_handler_spec. cbn [clients].
  unfold Set_add. rewrite bool_decide_eq_false_2 by done.
  unfold Set_size. rewrite length_app. simpl.
  by rewrite Nat.add_1_r.
Qed.

Lemma listeners_snoc (l : list endpoint) (x ws : endpoint) :
  listeners (l ++ [x]) ws =
  listeners l ws ++ (if decide (x = ws) then [x] else []).
Proof. unfold listeners. by rewrite filter_app. Qed.

Lemma registered_once_snoc (ph : gmap endpoint phase) (l : list endpoint)
    (ws : endpoint) :
  ph !! ws = None → registered_once ph l →
  registered_once (<[ws := Connected]> ph) (l ++ [ws]).
Proof.
  intros Hnew Hl x. rewrite listeners_snoc, Hl.
  destruct (decide (ws = x)) as [->|Hne].
  - by rewrite Hnew, lookup_insert_eq.
  - rewrite lookup_insert_ne by done. by rewrite (right_id_L [] (++)).
Qed.

Lemma registered_once_close (ph : gmap endpoint phase) (l : list endpoint)
    (ws : endpoint) :
  ph !! ws = Some Connected → registered_once ph l →
  registered_once (<[ws := Closed]> ph) l.
Proof.
  intros Hconn Hl x. rewrite Hl.
  destruct (decide (ws = x)) as [->|Hne].
  - by rewrite Hconn, lookup_insert_eq.
  - by rewrite lookup_insert_ne.
Qed.

Lemma step_consistent (ph : gmap endpoint phase) (e : event) (w : world) :
  consistent ph w → allowed ph e = true →
  ∃ w', step e w = (Normal (), w') ∧ consistent (phase_step ph e) w'.
Proof.
  intros [Hnd Hcl Hm Hc He] Hok.
  destruct e as [ws|ws raw b|ws|ws m|ws st|ws]; simpl in Hok;
    try apply bool_decide_eq_true_1 in Hok.
  - assert (ws ∉ clients w) as Hnot by (rewrite Hcl, Hok; done).
    eexists; split; [by apply step_connection|].
    split; cbn [clients on_message on_close on_error phase_step].
    + apply NoDup_app. split; [done|]. split; [|apply NoDup_singleton].
      intros x Hx ->%list_elem_of_singleton. done.
    + intros x. rewrite elem_of_app, list_elem_of_singleton, Hcl.
      destruct (decide (ws = x)) as [->|Hne].
      * rewrite lookup_insert_eq. intuition congruence.
      * rewrite lookup_insert_ne by done. intuition congruence.
    + by apply registered_once_snoc.
    + by apply registered_once_snoc.
    + by apply registered_once_snoc.
  - eexists; split.
    + rewrite step_message; [apply message_handler_spec|].
      by rewrite Hm, Hok.
    + by split.
  - eexists; split.
    + apply step_close. by rewrite Hc, Hok.
    + split; cbn [clients on_message on_close on_error phase_step].
      * by apply NoDup_filter.
      * intros x. unfold Set_delete. rewrite list_elem_of_filter, Hcl.
        destruct (decide (ws = x)) as [->|Hne].
        -- rewrite lookup_insert_eq. intuition congruence.
        -- rewrite lookup_insert_ne by done. intuition congruence.
      * by apply registered_once_close.
      * by apply registered_once_close.
      * by apply registered_once_close.
  - eexists; split.
    + apply step_error. by rewrite He, Hok.
    + by split.
  - eexists; split; [reflexivity|by split].
  - eexists; split; [reflexivity|by split].
Qed.

Lemma run_consistent (evs : list event) :
  ∀ ph w, consistent ph w → lifecycle_from ph evs = true →
  ∃ w', run evs w = (Normal (), w') ∧ consistent (foldl phase_step ph evs) w'.
Proof.
  induction evs as [|e evs IH]; intros ph w Hw Hlife.
  - by exists w.
  - simpl in Hlife. apply andb_true_iff in Hlife as [Hok Hrest].
    destruct (step_consistent ph e w Hw Hok) as (w1 & Hstep & Hw1).
    destruct (IH _ _ Hw1 Hrest) as (w2 & Hrun & Hw2).
    exists w2. split; [|done].
    unfold run in *. cbn [for_of]. unfold mbind, js_bind. by rewrite Hstep.
Qed.

Lemma initial_consistent : consistent ∅ initial.
Proof.
  split; simpl.
  - apply NoDup_nil_2.
  - intros ws. rewrite lookup_empty. split; [by intros ?%not_elem_of_nil|done].
  - intros ws. by rewrite lookup_empty.
  - intros ws. by rewrite lookup_empty.
  - intros ws. by rewrite lookup_empty.
Qed.

Lemma lifecycle_from_app (l1 l2 : list event) :
  ∀ ph, lifecycle_from ph (l1 ++ l2) =
        lifecycle_from ph l1 && lifecycle_from (foldl phase_step ph l1) l2.
Proof.
  induction l1 as [|e l1 IH]; intros ph; simpl; [done|].
  by rewrite IH, andb_assoc.
Qed.

(** A run that follows the event order never throws, and ends in a
    consistent world. *)
Lemma after_lifecycle (evs : list event) :
  lifecycle evs = true →
  run evs initial = (Normal (), after evs) ∧ consistent (phases evs) (after evs).
Proof.
  intros H.
  destruct (run_consistent evs ∅ initial initial_consistent H) as (w & Hrun & Hw).
  unfold after. by rewrite Hrun.
Qed.

(** The state after [pre ++ e :: post] is reached through the state after
    [pre] and one step on [e]. *)
Lemma after_snoc (pre : list event) (e : event) :
  lifecycle (pre ++ [e]) = true →
  after (pre ++ [e]) = (step e (after pre)).2
  ∧ lifecycle pre = true ∧ allowed (phases pre) e = true.
Proof.
  intros H. unfold lifecycle in H. rewrite lifecycle_from_app in H.
  apply andb_true_iff in H as [Hpre He]. simpl in He.
  rewrite andb_true_r in He.
  destruct (after_lifecycle pre Hpre) as [Hrun _].
  split; [|done]. unfold after at 1, run.
  rewrite for_of_app. fold (run pre). rewrite Hrun. simpl.
  unfold mbind, js_bind. by destruct (step e (after pre)) as [[[]|?] ?].
Qed.

(** *** A message event in a run that follows the event order *)

Lemma delivered_message (ws : endpoint) (raw : list Z) (b : bool) (w : world) :
  listeners (on_message w) ws = [ws] →
  delivered (Message ws raw b) w = relayed ws raw w.
Proof.
  intros H. unfold delivered. rewrite step_message, message_handler_spec by done.
  simpl. by rewrite drop_app_length.
Qed.

Lemma message_in_lifecycle (pre : list event) (ws : endpoint) (raw : list Z)
    (b : bool) :
  lifecycle (pre ++ [Message ws raw b]) = true →
  consistent (phases pre) (after pre)
  ∧ ws ∈ clients (after pre)
  ∧ listeners (on_message (after pre)) ws = [ws]
  ∧ after (pre ++ [Message ws raw b]) = (message_handler ws raw (after pre)).2.
Proof.
  intros H. destruct (after_snoc _ _ H) as (Hafter & Hpre & Hok).
  destruct (after_lifecycle pre Hpre) as [_ Hcons].
  simpl in Hok. apply bool_decide_eq_true_1 in Hok.
  assert (listeners (on_message (after pre)) ws = [ws]) as Hl.
  { by rewrite (cons_message _ _ Hcons), Hok. }
  split; [done|]. split; [by apply (cons_clients _ _ Hcons)|].
  split; [done|]. by rewrite Hafter, step_message.
Qed.

Lemma length_filter_ne (x : endpoint) (l : list endpoint) :
  NoDup l → x ∈ l → S (length (filter (λ y, y ≠ x) l)) = length l.
Proof.
  induction 1 as [|y l Hy Hnd IH]; intros Hx.
  - by apply not_elem_of_nil in Hx.
  - rewrite filter_cons. destruct (decide (y ≠ x)) as [Hne|Heq].
    + simpl. f_equal. apply IH.
      apply elem_of_cons in Hx as [->|]; done.
    + apply dec_stable in Heq as ->. simpl. f_equal.
      clear IH Hnd Hx. induction l as [|z l IH]; [done|].
      apply not_elem_of_cons in Hy as [Hz Hy].
      rewrite filter_cons, decide_True by done. simpl. f_equal. by apply IH.
Qed.

Lemma Set_delete_absent (x : endpoint) (s : list endpoint) :
  x ∉ s → Set_delete x s = s.
Proof.
  intros Hx. unfold Set_delete. induction s as [|y s IH]; [done|].
  apply not_elem_of_cons in Hx as [Hne Hx].
  rewrite filter_cons, decide_True by done. f_equal. by apply IH.
Qed.

Lemma filter_agree (P Q : endpoint → Prop) `{∀ x, Decision (P x)}
    `{∀ x, Decision (Q x)} (l : list endpoint) :
  (∀ x, x ∈ l → P x ↔ Q x) → filter P l = filter Q l.
Proof.
  induction l as [|y l IH]; intros HPQ; [done|].
  rewrite !filter_cons.
  assert (filter P l = filter Q l) as ->.
  { apply IH. intros x Hx. apply HPQ. by right. }
  destruct (decide (P y)) as [HP|HP], (decide (Q y)) as [HQ|HQ]; try done;
    exfalso; apply (HPQ y) in HP || apply (HPQ y) in HQ; try done; by left.
Qed.

(** C1.  In a run that follows the library's event order, when the Set
    holds N >= 2 sockets and all of them are open, handling a message
    from E makes exactly N-1 [send] calls, one to each member other than
    E and none to E, each carrying [raw.toString()]. *)
Theorem fan_out_exclusion (pre : list event) (E : endpoint) (raw : list Z)
    (b : bool) (N : nat) :
  lifecycle (pre ++ [Message E raw b]) = true →
  Set_size (clients (after pre)) = N → (2 ≤ N)%nat →
  (∀ c, c ∈ clients (after pre) → readyState (after pre) !! c = Some 1) →
  let sends := delivered (Message E raw b) (after pre) in
  wire (after (pre ++ [Message E raw b])) = wire (after pre) ++ sends
  ∧ length sends = (N - 1)%nat
  ∧ NoDup (dest <$> sends)
  ∧ (∀ c, c ∈ (dest <$> sends) ↔ c ∈ clients (after pre) ∧ c ≠ E)
  ∧ (E ∉ (dest <$> sends))
  ∧ (∀ m, m ∈ sends → data m = Utf.Buffer_toString raw).
Proof.
  intros Hlife HN H2 Hopen sends.
  destruct (message_in_lifecycle _ _ _ _ Hlife) as (Hcons & HE & Hl & Hafter).
  assert (sends = relayed E raw (after pre)) as Hsends
    by (by apply delivered_message).
  assert (recipients E (after pre)
          = filter (λ y, y ≠ E) (clients (after pre))) as Hrec.
  { unfold recipients. apply filter_agree.
    intros c Hc. specialize (Hopen c Hc). intuition congruence. }
  assert (dest <$> sends = filter (λ y, y ≠ E) (clients (after pre))) as Hdest.
  { rewrite Hsends. unfold relayed. rewrite <-list_fmap_compose, Hrec.
    apply list_fmap_id. }
  split; [|split; [|split; [|split; [|split]]]].
  - rewrite Hafter, message_handler_spec. simpl. by rewrite Hsends.
  - rewrite <-(length_fmap dest), Hdest.
    pose proof (length_filter_ne E _ (cons_nodup _ _ Hcons) HE) as Hlen.
    unfold Set_size in HN. lia.
  - rewrite Hdest. apply NoDup_filter, (cons_nodup _ _ Hcons).
  - intros c. by rewrite Hdest, list_elem_of_filter, (comm and).
  - rewrite Hdest, list_elem_of_filter. by intros [? _].
  - intros m. rewrite Hsends. unfold relayed.
    rewrite list_elem_of_fmap. by intros (c & -> & _).
Qed.

Lemma elem_of_Set_add (x y : endpoint) (s : list endpoint) :
  y ∈ Set_add x s ↔ y = x ∨ y ∈ s.
Proof.
  unfold Set_add. case_bool_decide as Hx.
  - split; [by right|]. by intros [->|].
  - rewrite elem_of_app, list_elem_of_singleton. intuition congruence.
Qed.

Lemma elem_of_Set_delete (x y : endpoint) (s : list endpoint) :
  y ∈ Set_delete x s ↔ y ≠ x ∧ y ∈ s.
Proof. unfold Set_delete. by rewrite list_elem_of_filter. Qed.

(** C9.  Handling a message event leaves the Set as it was, however many
    listeners run; so do error events and the transport's own moves.
    Only [connection] and [close] events reach [clients.add] and
    [clients.delete]. *)
Theorem message_preserves_set (w : world) (ws : endpoint) (raw : list Z)
    (b : bool) (e : event) :
  clients (message_handler ws raw w).2 = clients w
  ∧ clients (step (Message ws raw b) w).2 = clients w
  ∧ match e with
    | Connection _ | Close _ => True
    | _ => clients (step e w).2 = clients w
    end.
Proof.
  split; [by rewrite message_handler_spec|].
  split; [apply (step_clients (Message ws raw b))|].
  destruct e; try done; apply step_clients.
Qed.

(** C6.  [clients.delete(ws)] on a socket that is not in the Set: the
    close handler returns normally, the Set and its size are what they
    were, and the Set goes on working: a later add puts its socket in
    (one more member when it was absent) and keeps the others, a later
    delete takes its socket out (one member fewer when it was present)
    and keeps the others. *)
Theorem unregister_absent_noop (w : world) (ws : endpoint) :
  NoDup (clients w) → ws ∉ clients w →
  ∃ w', close_handler ws w = (Normal (), w')
    ∧ clients w' = clients w
    ∧ Set_size (clients w') = Set_size (clients w)
    ∧ clients (step (Close ws) w).2 = clients w
    ∧ (∀ x, let w1 := (clients_add x w').2 in
            (x ∈ clients w1)
            ∧ (∀ y, y ∈ clients w → y ∈ clients w1)
            ∧ (x ∉ clients w → Set_size (clients w1) = S (Set_size (clients w)))
            ∧ NoDup (clients w1))
    ∧ (∀ x, let w2 := (clients_delete x w').2 in
            (x ∉ clients w2)
            ∧ (∀ y, y ≠ x → y ∈ clients w → y ∈ clients w2)
            ∧ (x ∈ clients w → S (Set_size (clients w2)) = Set_size (clients w))
            ∧ NoDup (clients w2)).
Proof.
  intros Hnd Hws. eexists. split; [apply close_handler_spec|].
  cbn [clients]. rewrite (Set_delete_absent ws _ Hws).
  split; [done|]. split; [done|]. split; [|split].
  - rewrite step_clients. destruct (listeners _ _); [done|].
    by apply Set_delete_absent.
  - intros x. unfold clients_add. cbn [snd clients].
    split; [apply elem_of_Set_add; by left|].
    split; [intros y Hy; apply elem_of_Set_add; by right|].
    unfold Set_add, Set_size. split.
    + intros Hx. rewrite bool_decide_eq_false_2 by done.
      rewrite length_app. simpl. lia.
    + case_bool_decide as Hx; [done|]. apply NoDup_app.
      split; [done|]. split; [|apply NoDup_singleton].
      by intros y Hy ->%list_elem_of_singleton.
  - intros x. unfold clients_delete. cbn [snd clients].
    split; [rewrite elem_of_Set_delete; by intros [? _]|].
    split; [intros y ? ?; by apply elem_of_Set_delete|].
    split; [intros Hx; by apply length_filter_ne|by apply NoDup_filter].
Qed.

(** C4.  In every world, whichever sockets are losing their writes, the
    message handler returns normally (nothing is thrown into the
    sender's [message] event, and the sender's socket and the Set are
    untouched), and every open member other than the sender gets its
    [send]: one that is not failing has the message written to it, one
    that is failing has its own write lost and nothing else. *)
Theorem send_failure_isolated (w : world) (ws : endpoint) (raw : list Z) :
  ∃ w', message_handler ws raw w = (Normal (), w')
    ∧ clients w' = clients w
    ∧ readyState w' = readyState w
    ∧ ∀ c, c ∈ clients w → c ≠ ws → readyState w !! c = Some 1 →
        let sends := drop (length (wire w)) (wire w') in
        (c ∉ failing w → Sent c (Utf.Buffer_toString raw) Written ∈ sends)
        ∧ (c ∈ failing w → Sent c (Utf.Buffer_toString raw) Lost ∈ sends).
Proof.
  eexists. split; [apply message_handler_spec|].
  split; [done|]. split; [done|].
  intros c Hc Hne Hopen. cbn. rewrite drop_app_length.
  assert (Sent c (Utf.Buffer_toString raw) (fate_of w c) ∈ relayed ws raw w)
    as Hin.
  { unfold relayed. apply list_elem_of_fmap. exists c. split; [done|].
    unfold recipients. by apply list_elem_of_filter. }
  unfold fate_of in Hin. split; intros Hf.
  - by rewrite bool_decide_eq_false_2 in Hin.
  - by rewrite bool_decide_eq_true_2 in Hin.
Qed.

(** Once closed, a socket stays closed in a run that follows the event
    order. *)
Lemma closed_stays (evs : list event) (ws : endpoint) :
  ∀ ph, lifecycle_from ph evs = true → ph !! ws = Some Closed →
        foldl phase_step ph evs !! ws = Some Closed.
Proof.
  induction evs as [|e evs IH]; intros ph Hlife Hph; [done|].
  simpl in Hlife. apply andb_true_iff in Hlife as [Hok Hrest].
  simpl. apply IH; [done|].
  destruct e as [x| | x | | |]; simpl in *; try done;
    apply bool_decide_eq_true_1 in Hok;
    (destruct (decide (x = ws)) as [->|Hne];
     [congruence|by rewrite lookup_insert_ne]).
Qed.

Lemma close_seen (evs : list event) (ws : endpoint) :
  ∀ ph, lifecycle_from ph evs = true → Close ws ∈ evs →
        foldl phase_step ph evs !! ws = Some Closed.
Proof.
  induction evs as [|e evs IH]; intros ph Hlife Hin.
  - by apply not_elem_of_nil in Hin.
  - simpl in Hlife. apply andb_true_iff in Hlife as [Hok Hrest].
    apply elem_of_cons in Hin as [<-|Hin]; [|by apply IH].
    simpl. apply closed_stays; [done|]. by rewrite lookup_insert_eq.
Qed.

(** C3 (as the code has it).  In a run that follows the event order, a
    socket whose [close] event has been handled is not in the Set; an
    [error] event is only logged and leaves the Set as it was, in every
    world. *)
Theorem close_removes_endpoint (evs : list event) (ws : endpoint)
    (w : world) (message : string) :
  (lifecycle evs = true → Close ws ∈ evs → ws ∉ clients (after evs))
  ∧ clients (step (Error ws message) w).2 = clients w
  ∧ (listeners (on_error w) ws = [ws] →
     step (Error ws message) w = (Normal (), logged (LogError message) w)).
Proof.
  split; [|split; [apply (step_clients (Error ws message))|apply step_error]].
  intros Hlife Hin.
  destruct (after_lifecycle evs Hlife) as [_ Hcons].
  rewrite (cons_clients _ _ Hcons).
  unfold phases. by rewrite (close_seen evs ws ∅ Hlife Hin).
Qed.

(** *** Any run at all, whether or not it follows the event order *)

Lemma after_snoc_any (pre : list event) (e : event) :
  after (pre ++ [e]) = after pre ∨ after (pre ++ [e]) = (step e (after pre)).2.
Proof.
  unfold after, run. rewrite for_of_app.
  destruct (for_of pre step initial) as [[[]|err] w]; [right|by left].
  simpl. unfold mbind, js_bind. by destruct (step e w) as [[[]|?] ?].
Qed.

(** A socket gets its [message] listener only in the connection handler,
    after [clients.add]; from then on only a [close] event on that socket
    takes it out of the Set. *)
Lemma listener_after_add (pre : list event) (ws : endpoint) :
  ws ∈ on_message (after pre) → ws ∈ clients (after pre) ∨ Close ws ∈ pre.
Proof.
  induction pre as [|e pre IH] using rev_ind.
  - by intros ?%not_elem_of_nil.
  - destruct (after_snoc_any pre e) as [->| ->].
    { intros [?|?]%IH; [by left|right]. apply elem_of_app. by left. }
    rewrite step_on_message, step_clients.
    assert (ws ∈ on_message (after pre) →
            ws ∈ clients (after pre) ∨ Close ws ∈ pre ++ [e]) as IH'.
    { intros [?|?]%IH; [by left|right]. apply elem_of_app. by left. }
    destruct e as [x|x raw b|x|x m|x st|x]; try done.
    + intros [Hin| ->%list_elem_of_singleton]%elem_of_app.
      * destruct (IH' Hin) as [?|?]; [left|by right].
        apply elem_of_Set_add. by right.
      * left. apply elem_of_Set_add. by left.
    + intros Hin. destruct (decide (ws = x)) as [->|Hne].
      { right. apply elem_of_app. right. by apply list_elem_of_singleton. }
      destruct (IH' Hin) as [?|?]; [left|by right].
      destruct (listeners _ _); [done|]. by apply elem_of_Set_delete.
Qed.

Lemma listeners_elem (l : list endpoint) (ws : endpoint) :
  listeners l ws ≠ [] → ws ∈ l.
Proof.
  unfold listeners. intros H.
  destruct (filter (λ x, x = ws) l) as [|y t] eqn:E; [done|].
  assert (y ∈ filter (λ x, x = ws) l) as Hy by (rewrite E; by left).
  by apply list_elem_of_filter in Hy as [-> ?].
Qed.

(** C7.  The connection handler puts every socket it is given into the
    Set.  A message event on a socket is processed only if the socket has
    a [message] listener (without one the event changes nothing), and it
    gets one only after [clients.add]: in any run at all in which the
    socket has not been closed, a socket with a listener is in the Set.
    In a run that follows the library's event order the socket of every
    message event is in the Set when the event is handled, and the
    handler runs exactly once. *)
Theorem registered_before_message (pre post : list event) (ws : endpoint)
    (raw : list Z) (b : bool) :
  (∀ w, ws ∈ clients (step (Connection ws) w).2)
  ∧ (Close ws ∉ pre → listeners (on_message (after pre)) ws ≠ [] →
     ws ∈ clients (after pre))
  ∧ (∀ x, listeners (on_message (after pre)) x = [] →
          step (Message x raw b) (after pre) = (Normal (), after pre))
  ∧ (lifecycle (pre ++ Message ws raw b :: post) = true →
     ws ∈ clients (after pre)
     ∧ step (Message ws raw b) (after pre)
       = message_handler ws raw (after pre)).
Proof.
  split; [|split; [|split]].
  - intros w. rewrite step_clients. apply elem_of_Set_add. by left.
  - intros Hclose Hl%listeners_elem.
    by destruct (listener_after_add pre ws Hl).
  - intros x Hl. unfold step, emit. by rewrite Hl.
  - intros Hlife. unfold lifecycle in Hlife.
    rewrite (lifecycle_from_app pre) in Hlife.
    apply andb_true_iff in Hlife as [Hpre Hrest].
    simpl in Hrest. apply andb_true_iff in Hrest as [Hok _].
    assert (lifecycle (pre ++ [Message ws raw b]) = true) as Hlife.
    { unfold lifecycle. rewrite lifecycle_from_app. simpl.
      by rewrite Hpre, Hok. }
    destruct (message_in_lifecycle _ _ _ _ Hlife) as (_ & Hin & Hl & _).
    split; [done|by apply step_message].
Qed.

(** *** The wire over a whole run *)

Lemma run_wire (evs : list event) (w : world) :
  ∃ t, wire (run evs w).2 = wire w ++ t.
Proof.
  destruct (for_of_wire (λ _, True) evs step) with (w := w) as (t & Ht & _).
  { intros e w'. exists (delivered e w'). split; [apply step_wire|].
    by apply Forall_true. }
  by exists t.
Qed.

Lemma lifecycle_prefix (l1 l2 : list event) :
  lifecycle (l1 ++ l2) = true → lifecycle l1 = true.
Proof.
  unfold lifecycle. rewrite lifecycle_from_app.
  by intros [? _]%andb_true_iff.
Qed.

Lemma after_app (l1 l2 : list event) :
  lifecycle (l1 ++ l2) = true → after (l1 ++ l2) = (run l2 (after l1)).2.
Proof.
  intros H%lifecycle_prefix.
  destruct (after_lifecycle l1 H) as [Hrun _].
  unfold after at 1, run. rewrite for_of_app. fold (run l1). by rewrite Hrun.
Qed.

Lemma inbox_app (d : endpoint) (t1 t2 : list sent) :
  inbox d (t1 ++ t2) = inbox d t1 ++ inbox d t2.
Proof. apply filter_app. Qed.

Lemma inbox_relayed (d ws : endpoint) (raw : list Z) (w : world) :
  NoDup (clients w) →
  inbox d (relayed ws raw w) =
  if decide (d ∈ recipients ws w)
  then [Sent d (Utf.Buffer_toString raw) (fate_of w d)] else [].
Proof.
  intros Hnd. unfold relayed.
  assert (NoDup (recipients ws w)) as Hrec by (by apply NoDup_filter).
  revert Hrec. generalize (recipients ws w). clear Hnd. intros l Hrec.
  induction Hrec as [|c l Hc Hl IH].
  { destruct (decide _) as [Hin|]; [by apply not_elem_of_nil in Hin|done]. }
  rewrite fmap_cons. unfold inbox in *. rewrite filter_cons. simpl.
  destruct (decide (c = d)) as [->|Hne].
  - rewrite decide_True by left. f_equal.
    rewrite IH. by rewrite decide_False.
  - rewrite IH. destruct (decide (d ∈ l)) as [Hin|Hin].
    + by rewrite decide_True by (by right).
    + rewrite decide_False; [done|].
      intros [?|?]%elem_of_cons; congruence.
Qed.

(** C5.  In a run that follows the event order, everything sent for a
    message m1 of A goes onto the wire before anything sent for a later
    message m2 of A; so in the inbox of every destination the record of m1
    (one, if the destination was an open member other than A when m1
    came) stands before the record of m2. *)
Theorem per_sender_order (pre mid post : list event) (A : endpoint)
    (m1 m2 : list Z) (b1 b2 : bool) :
  lifecycle (pre ++ Message A m1 b1 :: mid ++ Message A m2 b2 :: post) = true →
  let w1 := after pre in
  let w2 := after (pre ++ Message A m1 b1 :: mid) in
  let deliver (m : list Z) (w : world) (d : endpoint) :=
    if decide (d ∈ recipients A w)
    then [Sent d (Utf.Buffer_toString m) (fate_of w d)] else [] in
  delivered (Message A m1 b1) w1 = relayed A m1 w1
  ∧ delivered (Message A m2 b2) w2 = relayed A m2 w2
  ∧ ∃ between later,
      wire (after (pre ++ Message A m1 b1 :: mid ++ Message A m2 b2 :: post))
      = wire w1 ++ relayed A m1 w1 ++ between ++ relayed A m2 w2 ++ later
      ∧ ∀ d,
          inbox d (wire (after (pre ++ Message A m1 b1 :: mid
                                  ++ Message A m2 b2 :: post)))
          = inbox d (wire w1) ++ deliver m1 w1 d ++ inbox d between
              ++ deliver m2 w2 d ++ inbox d later.
Proof.
  intros Hlife w1 w2 deliver.
  set (e1 := Message A m1 b1) in *. set (e2 := Message A m2 b2) in *.
  assert (pre ++ e1 :: mid ++ e2 :: post
          = (((pre ++ [e1]) ++ mid) ++ [e2]) ++ post) as Hshape.
  { by rewrite <-!(assoc_L (++)). }
  assert (pre ++ e1 :: mid = (pre ++ [e1]) ++ mid) as Hshape2.
  { by rewrite <-!(assoc_L (++)). }
  rewrite Hshape in *. subst w2. rewrite Hshape2. subst e1 e2.
  pose proof (lifecycle_prefix _ _ Hlife) as H2.
  pose proof (lifecycle_prefix _ _ H2) as Hmid.
  pose proof (lifecycle_prefix _ _ Hmid) as H1.
  destruct (message_in_lifecycle _ _ _ _ H1) as (Hc1 & _ & Hl1 & Ha1).
  destruct (message_in_lifecycle _ _ _ _ H2) as (Hc2 & _ & Hl2 & Ha2).
  set (w2 := after ((pre ++ [Message A m1 b1]) ++ mid)) in *.
  destruct (run_wire mid (after (pre ++ [Message A m1 b1])))
    as [between Hbetween].
  destruct (run_wire post
              (after (((pre ++ [Message A m1 b1]) ++ mid)
                        ++ [Message A m2 b2])))
    as [later Hlater].
  rewrite <-(after_app _ _ Hmid) in Hbetween. fold w2 in Hbetween.
  rewrite <-(after_app _ _ Hlife) in Hlater.
  rewrite Ha1, message_handler_spec in Hbetween. simpl in Hbetween.
  rewrite Ha2, message_handler_spec in Hlater. simpl in Hlater.
  split; [by apply delivered_message|].
  split; [by apply delivered_message|].
  exists between, later.
  assert (wire (after ((((pre ++ [Message A m1 b1]) ++ mid)
                           ++ [Message A m2 b2]) ++ post))
          = wire w1 ++ relayed A m1 w1 ++ between ++ relayed A m2 w2 ++ later)
    as Hwire.
  { rewrite Hlater, Hbetween. by rewrite <-!(assoc_L (++)). }
  split; [done|].
  intros d. rewrite Hwire, !inbox_app.
  rewrite !inbox_relayed by (by eapply cons_nodup). done.
Qed.

(** *** What goes onto the wire *)


(** *** The properties at work on small runs *)

Ltac evaluate := vm_compute; reflexivity.

Ltac decided := apply (bool_decide_unpack _); vm_compute; exact I.

Ltac each_member H :=
  vm_compute in H;
  repeat (apply elem_of_cons in H as [->|H]);
  [..|by apply not_elem_of_nil in H].

(** A, B and C connect in that order, B disconnects, A sends "ping": C
    gets "ping" once, A and B get nothing, and the Set holds A and C. *)
Example three_endpoints :
  let w := after [Connection 0; Connection 1; Connection 2; Close 1;
                  Message 0 [112; 105; 110; 103]%Z false]%nat in
  wire w = [Sent 2%nat [112; 105; 110; 103] Written]
  ∧ clients w = [0; 2]%nat.
Proof. split; evaluate. Qed.

(** A connects and sends "hello" before B connects: nothing is sent, then
    or later. *)
Example nothing_is_buffered :
  wire (after [Connection 0; Message 0 [104; 101; 108; 108; 111]%Z false;
               Connection 1]%nat) = [].
Proof. evaluate. Qed.

(** A member that is closing is skipped, and so is one that is still
    connecting, on which [send] would have thrown. *)
Example stale_members_are_skipped :
  let w := after [Connection 0; Connection 1; Connection 2; Connection 3;
                  ReadyState 1 2%Z; ReadyState 2 0%Z;
                  Message 0 [104; 105]%Z false]%nat in
  wire w = [Sent 3%nat [104; 105] Written].
Proof. evaluate. Qed.

Lemma fan_out_exclusion_witness :
  let pre := [Connection 0; Connection 1; Connection 2]%nat in
  let e := Message 0%nat [112; 105; 110; 103] false in
  let sends := delivered e (after pre) in
  wire (after (pre ++ [e])) = wire (after pre) ++ sends
  ∧ length sends = (3 - 1)%nat
  ∧ NoDup (dest <$> sends)
  ∧ (∀ c, c ∈ (dest <$> sends) ↔ c ∈ clients (after pre) ∧ c ≠ 0%nat)
  ∧ (0%nat ∉ (dest <$> sends))
  ∧ (∀ m, m ∈ sends → data m = Utf.Buffer_toString [112; 105; 110; 103]).
Proof.
  apply (fan_out_exclusion
           [Connection 0; Connection 1; Connection 2]%nat 0%nat
           [112; 105; 110; 103] false 3%nat).
  - evaluate.
  - evaluate.
  - lia.
  - intros c Hc. each_member Hc; evaluate.
Defined.



(** C3, as stated, fails: after an [error] event on a connected socket,
    in a run that follows the event order, the socket is still in the
    Set. *)
Lemma error_leaves_endpoint_in_set :
  let evs := [Connection 0%nat; Error 0%nat "ECONNRESET"] in
  lifecycle evs = true
  ∧ Error 0%nat "ECONNRESET" ∈ evs
  ∧ 0%nat ∈ clients (after evs).
Proof.
  split; [evaluate|]. split; [right; left|]. vm_compute. left.
Qed.

Lemma close_removes_endpoint_witness :
  let evs :=
    [Connection 0; Connection 1; Error 0 "ECONNRESET"; Close 0]%nat in
  (0%nat ∉ clients (after evs))
  ∧ step (Error 1%nat "EPIPE") (after evs)
    = (Normal (), logged (LogError "EPIPE") (after evs)).
Proof.
  pose proof (close_removes_endpoint
                [Connection 0; Connection 1; Error 0 "ECONNRESET"; Close 0]%nat
                0%nat initial "") as [Hclose _].
  pose proof (close_removes_endpoint [] 1%nat
                (after [Connection 0; Connection 1;
                        Error 0 "ECONNRESET"; Close 0]%nat) "EPIPE")
    as (_ & _ & Herror).
  split.
  - apply Hclose; [evaluate|]. do 3 right. left.
  - apply Herror. evaluate.
Defined.

Lemma send_failure_isolated_witness :
  let w := after [Connection 0; Connection 1; Connection 2; Failing 1]%nat in
  let raw := [112; 105; 110; 103] in
  let sends := drop (length (wire w)) (wire (message_handler 0%nat raw w).2) in
  (Sent 2%nat (Utf.Buffer_toString raw) Written ∈ sends)
  ∧ Sent 1%nat (Utf.Buffer_toString raw) Lost ∈ sends.
Proof.
  intros w raw.
  destruct (send_failure_isolated w 0%nat raw) as (w' & Hrun & _ & _ & H).
  rewrite Hrun. cbn [snd]. split.
  - apply (H 2%nat); [decided|done|evaluate|decided].
  - apply (H 1%nat); [decided|done|evaluate|decided].
Defined.

Lemma per_sender_order_witness :
  let pre := [Connection 0; Connection 1]%nat in
  let mid := [Connection 2%nat] in
  let e1 := Message 0%nat [104; 105] false in
  let e2 := Message 0%nat [121; 111] false in
  ∃ between later,
    wire (after (pre ++ e1 :: mid ++ e2 :: []))
    = wire (after pre) ++ relayed 0%nat [104; 105] (after pre) ++ between
        ++ relayed 0%nat [121; 111] (after (pre ++ e1 :: mid)) ++ later.
Proof.
  intros pre mid e1 e2.
  destruct (per_sender_order pre mid [] 0%nat [104; 105] [121; 111]
              false false) as (_ & _ & between & later & Hwire & _).
  - evaluate.
  - by exists between, later.
Defined.

Lemma unregister_absent_noop_witness :
  let w := after [Connection 0; Connection 1]%nat in
  clients (close_handler 5%nat w).2 = clients w
  ∧ clients (step (Close 5%nat) w).2 = clients w.
Proof.
  intros w.
  destruct (unregister_absent_noop w 5%nat) as (w' & Hrun & Hsame & _ & Hstep & _).
  - decided.
  - decided.
  - rewrite Hrun. by split.
Defined.

Lemma registered_before_message_witness :
  let pre := [Connection 0%nat] in
  (0%nat ∈ clients (after pre))
  ∧ step (Message 1%nat [104; 105] false) (after pre) = (Normal (), after pre)
  ∧ step (Message 0%nat [104; 105] false) (after pre)
    = message_handler 0%nat [104; 105] (after pre).
Proof.
  intros pre.
  destruct (registered_before_message pre [] 0%nat [104; 105] false)
    as (_ & Hadded & Hnone & Hlife).
  split; [|split].
  - apply Hadded; [decided|]. intros H. vm_compute in H. discriminate.
  - apply Hnone. evaluate.
  - apply Hlife. evaluate.
Defined.

End RelayFacts.

(** ** The HTTP server *)

Module HttpFacts.
Import Http.

Lemma routes_files (url fileName : string) :
  ROUTES !! url = Some fileName →
  fileName ∈ ["auto.html"; "sender.html"; "receiver.html"]%string.
Proof.
  intros H. apply elem_of_list_to_map_2 in H.
  repeat (apply elem_of_cons in H as [H|H]); simplify_eq;
    [set_solver..|by apply not_elem_of_nil in H].
Qed.

(** What the prototype adds to [ROUTES] is out of reach of a request
    target. *)
Lemma prototype_not_target (key : string) :
  key ∈ JS.Object_prototype → request_target key = false.
Proof.
  intros H. unfold JS.Object_prototype in H.
  repeat (apply elem_of_cons in H as [->|H]); try reflexivity.
  by apply not_elem_of_nil in H.
Qed.

Lemma append_cons (c : ascii) (x y : string) :
  (String c x +:+ y = String c (x +:+ y))%string.
Proof. reflexivity. Qed.

Lemma append_assoc (x y z : string) :
  ((x +:+ y) +:+ z = x +:+ (y +:+ z))%string.
Proof.
  induction x as [|c x IH]; [done|]. by rewrite !append_cons, IH.
Qed.

Lemma list_ascii_of_string_app (x y : string) :
  list_ascii_of_string (x +:+ y)
  = list_ascii_of_string x ++ list_ascii_of_string y.
Proof.
  induction x as [|c x IH]; [done|]. rewrite append_cons. simpl.
  by rewrite IH.
Qed.

(** The extension is read off the end of the path: whatever the
    directory, a path that ends in one of the served file names has the
    extension [.html]. *)
Lemma extname_served (x fileName : string) :
  fileName ∈ ["auto.html"; "sender.html"; "receiver.html"]%string →
  path_extname (x +:+ fileName) = ".html"%string.
Proof.
  intros H. unfold path_extname.
  rewrite list_ascii_of_string_app, reverse_app.
  repeat (apply elem_of_cons in H as [->|H]);
    [reflexivity..|by apply not_elem_of_nil in H].
Qed.

Lemma path_join_ends (dir fileName : string) :
  ∃ x, path_join dir fileName = x +:+ fileName.
Proof.
  unfold path_join. destruct (reverse (list_ascii_of_string dir)) as [|c ?].
  - by exists ""%string.
  - destruct (is_slash c); [by exists dir|].
    exists (dir +:+ "/")%string. by rewrite append_assoc.
Qed.

(** A property name inherited from [Object.prototype] is not a string:
    were it to arrive as a URL, [path.join] would throw.  No request
    target is such a name. *)
Lemma prototype_key_throws (dirname : string)
    (readFile : string → option (list Z)) :
  request_handler dirname readFile "constructor"
  = Uncaught "ERR_INVALID_ARG_TYPE".
Proof. reflexivity. Qed.

(** C8.  A request whose target, in any of the forms that the HTTP parser
    lets through, is not a key of [ROUTES] is answered 404;
    a request for a route whose file cannot be read is answered 500; a
    request for a route whose file is read is answered 200 with the data
    and with the content type that [MIME_TYPES] gives for the extension
    of the file path, which for the files served is [text/html]. *)
Theorem static_routes (dirname : string)
    (readFile : string → option (list Z)) :
  (∀ url, request_target url = true → ROUTES !! url = None →
     request_handler dirname readFile url
     = Responded (Response 404 (JS.JString "text/plain")
                    (Text "404 — Not Found")))
  ∧ (∀ url fileName, ROUTES !! url = Some fileName →
       readFile (path_join dirname fileName) = None →
       request_handler dirname readFile url
       = Responded (Response 500 (JS.JString "text/plain")
                      (Text "500 — Internal Server Error")))
  ∧ (∀ url fileName data, ROUTES !! url = Some fileName →
       readFile (path_join dirname fileName) = Some data →
       request_handler dirname readFile url
       = Responded
           (Response 200
              (JS.or (JS.get MIME_TYPES
                        (path_extname (path_join dirname fileName)))
                     (JS.JString "application/octet-stream"))
              (File data))
       ∧ path_extname (path_join dirname fileName) = ".html"%string
       ∧ JS.or (JS.get MIME_TYPES (path_extname (path_join dirname fileName)))
               (JS.JString "application/octet-stream")
         = JS.JString "text/html").
Proof.
  split; [|split].
  - intros url Htarget Hroute. unfold request_handler, JS.get.
    rewrite Hroute. rewrite bool_decide_eq_false_2; [done|].
    intros Hproto%prototype_not_target. congruence.
  - intros url fileName Hroute Hread. unfold request_handler, JS.get.
    rewrite Hroute. cbn [JS.truthy].
    apply routes_files in Hroute.
    assert (String.eqb fileName "" = false) as ->.
    { repeat (apply elem_of_cons in Hroute as [->|Hroute]); try done.
      by apply not_elem_of_nil in Hroute. }
    cbn [negb]. by rewrite Hread.
  - intros url fileName data Hroute Hread.
    assert (path_extname (path_join dirname fileName) = ".html"%string)
      as Hext.
    { destruct (path_join_ends dirname fileName) as [x ->].
      by apply extname_served, (routes_files url). }
    split; [|split; [done|by rewrite Hext]].
    unfold request_handler, JS.get.
    rewrite Hroute. cbn [JS.truthy].
    apply routes_files in Hroute.
    assert (String.eqb fileName "" = false) as ->.
    { repeat (apply elem_of_cons in Hroute as [->|Hroute]); try done.
      by apply not_elem_of_nil in Hroute. }
    cbn [negb]. by rewrite Hread.
Qed.

Lemma static_routes_witness :
  let readFile := λ path : string,
    if String.eqb path "/srv/app/auto.html" then Some [60; 33] else None in
  request_handler "/srv/app" readFile "/favicon.ico"
  = Responded (Response 404 (JS.JString "text/plain") (Text "404 — Not Found"))
  ∧ request_handler "/srv/app" readFile "/sender"
    = Responded (Response 500 (JS.JString "text/plain")
                   (Text "500 — Internal Server Error"))
  ∧ request_handler "/srv/app" readFile "/auto"
    = Responded (Response 200 (JS.JString "text/html") (File [60; 33])).
Proof.
  intros readFile.
  destruct (static_routes "/srv/app" readFile) as (H404 & H500 & H200).
  split; [|split].
  - apply H404; reflexivity.
  - apply (H500 "/sender" "sender.html")%string; reflexivity.
  - destruct (H200 "/auto" "auto.html" [60; 33])%string as (Hres & _ & Htype);
      [reflexivity..|].
    by rewrite Hres, Htype.
Defined.

End HttpFacts.

(** ** The port *)

Module PortFacts.
Import Port.

(** [PORT] is the value of the environment variable whenever that is a
    non-empty string, the string ["0"] included, and the number 8080 when
    the variable is unset or empty. *)
Lemma port_from_environment (env : gmap string string) :
  PORT env =
  match env !! "PORT"%string with
  | Some s => if decide (s = ""%string) then JS.JNumber 8080 else JS.JString s
  | None => JS.JNumber 8080
  end.
Proof.
  unfold PORT, JS.get, JS.or.
  destruct (env !! "PORT"%string) as [s|] eqn:E; [|reflexivity].
  cbn [JS.truthy]. destruct (decide (s = ""%string)) as [->|Hs]; [done|].
  by apply String.eqb_neq in Hs as ->.
Qed.

Lemma decimal_from_nonneg (s : string) :
  ∀ acc n, 0 <= acc → decimal_from acc s = Some n → 0 <= n.
Proof.
  induction s as [|c s IH]; intros acc n Hacc; simpl.
  - intros [= <-]. done.
  - unfold digit. destruct (_ && _) eqn:E; [|done].
    apply andb_true_iff in E as [E _]. apply Z.leb_le in E.
    apply IH. lia.
Qed.

Lemma decimal_nonneg (s : string) (n : Z) : decimal s = Some n → 0 <= n.
Proof.
  destruct s; [done|]. unfold decimal. by apply decimal_from_nonneg.
Qed.




End PortFacts.

(** ** More on the relay *)

Module RelayMore.
Import Relay RelayFacts.

Ltac evaluate_lt := vm_compute; lia.

Ltac each_socket H :=
  vm_compute in H;
  repeat (apply elem_of_cons in H as [->|H]);
  [..|exfalso; exact (not_elem_of_nil _ H)].

(** *** What one message event may put on the wire, in any world *)

Lemma for_of_wire_inv {A} (I : world → Prop) (P : sent → Prop) (xs : list A)
    (body : A → js ()) :
  (∀ x w, I w → ∃ t, wire (body x w).2 = wire w ++ t ∧ Forall P t
                     ∧ I (body x w).2) →
  ∀ w, I w → ∃ t, wire (for_of xs body w).2 = wire w ++ t ∧ Forall P t.
Proof.
  intros Hbody. induction xs as [|x xs IH]; intros w Hw; simpl.
  - exists []. by rewrite (right_id_L [] (++)).
  - unfold mbind, js_bind. destruct (Hbody x w Hw) as (t1 & Ht1 & HP1 & Hw1).
    destruct (body x w) as [[[]|e] w']; simpl in *; [|by eauto].
    destruct (IH w' Hw1) as (t2 & Ht2 & HP2). exists (t1 ++ t2).
    split; [|by apply Forall_app].
    by rewrite Ht2, Ht1, <-(assoc_L (++)).
Qed.

Lemma delivered_to_recipients (ws : endpoint) (raw : list Z) (b : bool)
    (w : world) :
  Forall (λ m, dest m ∈ recipients ws w) (delivered (Message ws raw b) w).
Proof.
  assert (∃ t, wire (step (Message ws raw b) w).2 = wire w ++ t
               ∧ Forall (λ m, dest m ∈ recipients ws w) t) as (t & Ht & HP).
  { unfold step, emit.
    apply (for_of_wire_inv
             (λ w', clients w' = clients w ∧ readyState w' = readyState w));
      [|done].
    intros _ w' [Hc Hr]. rewrite message_handler_spec. cbn.
    eexists. split; [done|]. split; [|done].
    unfold relayed. apply Forall_fmap, Forall_forall. intros c Hc'. cbn.
    unfold recipients in *. by rewrite <-Hc, <-Hr. }
  unfold delivered. by rewrite Ht, drop_app_length.
Qed.

(** X1.  Whatever the world and however many listeners run, a [send]
    made while a message from [ws] is handled goes to a member of the Set
    that is not [ws] and whose readyState is 1. *)
Theorem sends_only_to_open_others (w : world) (ws : endpoint) (raw : list Z)
    (b : bool) (m : sent) :
  m ∈ delivered (Message ws raw b) w →
  dest m ∈ clients w ∧ dest m ≠ ws ∧ readyState w !! dest m = Some 1.
Proof.
  intros Hm. pose proof (delivered_to_recipients ws raw b w) as H.
  rewrite Forall_forall in H. specialize (H m Hm).
  unfold recipients in H. apply list_elem_of_filter in H. tauto.
Qed.

Lemma sends_only_to_open_others_witness :
  let w := after [Connection 0; Connection 1; Connection 2;
                  ReadyState 2 2%Z]%nat in
  1%nat ∈ clients w ∧ 1%nat ≠ 0%nat ∧ readyState w !! 1%nat = Some 1.
Proof.
  apply (sends_only_to_open_others
           (after [Connection 0; Connection 1; Connection 2;
                   ReadyState 2 2%Z]%nat)
           0%nat [104; 105] false (Sent 1%nat [104; 105] Written)).
  vm_compute. left.
Defined.

(** X2.  When no member of the Set other than the sender is open (the
    sender is alone, or the others are closing), handling its message sends
    nothing. *)
Theorem nothing_sent_when_alone (w : world) (ws : endpoint) (raw : list Z)
    (b : bool) :
  (∀ c, c ∈ clients w → c ≠ ws → readyState w !! c ≠ Some 1) →
  delivered (Message ws raw b) w = [].
Proof.
  intros Halone. pose proof (delivered_to_recipients ws raw b w) as H.
  destruct (delivered (Message ws raw b) w) as [|m t]; [done|].
  apply Forall_cons in H as [H _].
  unfold recipients in H. apply list_elem_of_filter in H as [[Hne Hopen] Hin].
  by destruct (Halone _ Hin Hne).
Qed.

Lemma nothing_sent_when_alone_witness :
  delivered (Message 0%nat [104; 105] false)
    (after [Connection 0; Connection 1; ReadyState 1 2%Z]%nat) = [].
Proof.
  apply nothing_sent_when_alone.
  intros c Hc Hne. each_socket Hc.
  - exfalso. apply Hne. reflexivity.
  - vm_compute. discriminate.
Defined.

(** *** Any run at all *)

Lemma step_wire_silent (e : event) (w : world) :
  match e with Message _ _ _ => True | _ => delivered e w = [] end.
Proof.
  assert (∀ w', wire w' = wire w → drop (length (wire w)) (wire w') = [])
    as Hdrop.
  { intros w' ->. apply drop_all. }
  destruct e as [ws|ws raw b|ws|ws m|ws st|ws]; try done;
    unfold delivered; apply Hdrop; try reflexivity.
  - unfold step, emit. unfold mbind, js_bind, set_readyState.
    etrans; [by apply (for_of_frame wire)|done].
  - unfold step, emit_error, emit.
    destruct (listeners (on_error w) ws) eqn:E; [done|].
    by apply (for_of_frame wire).
Qed.

Lemma NoDup_Set_add (x : endpoint) (s : list endpoint) :
  NoDup s → NoDup (Set_add x s).
Proof.
  intros Hs. unfold Set_add. case_bool_decide as Hx; [done|].
  apply NoDup_app. split; [done|]. split; [|apply NoDup_singleton].
  by intros y Hy ->%list_elem_of_singleton.
Qed.

Lemma relayed_dests (ws : endpoint) (raw : list Z) (w : world) :
  dest <$> relayed ws raw w = recipients ws w.
Proof.
  unfold relayed. generalize (recipients ws w). intros l.
  induction l as [|c l IH]; [done|]. rewrite !fmap_cons. cbn. by f_equal.
Qed.

Lemma any_run_NoDup (evs : list event) : NoDup (clients (after evs)).
Proof.
  induction evs as [|e evs IH] using rev_ind; [apply NoDup_nil_2|].
  destruct (after_snoc_any evs e) as [->| ->]; [done|].
  rewrite step_clients. destruct e; try done.
  - by apply NoDup_Set_add.
  - destruct (listeners _ _); [done|]. by apply NoDup_filter.
Qed.

(** X3.  Whatever events come and in whatever order, the Set never holds
    a socket twice, so that one run of the message handler never sends
    twice to the same destination; in a run that follows the event order,
    where a message event runs the handler once, neither does one message
    event. *)
Theorem never_twice (evs : list event) (ws : endpoint) (raw : list Z)
    (b : bool) :
  NoDup (clients (after evs))
  ∧ NoDup (dest <$> drop (length (wire (after evs)))
                      (wire (message_handler ws raw (after evs)).2))
  ∧ (lifecycle (evs ++ [Message ws raw b]) = true →
     NoDup (dest <$> delivered (Message ws raw b) (after evs))).
Proof.
  pose proof (any_run_NoDup evs) as Hnd.
  assert (NoDup (dest <$> relayed ws raw (after evs))) as Hsends.
  { rewrite relayed_dests. by apply NoDup_filter. }
  split; [done|]. split.
  - rewrite message_handler_spec. cbn [snd wire push logged].
    by rewrite drop_app_length.
  - intros Hlife.
    destruct (message_in_lifecycle _ _ _ _ Hlife) as (_ & _ & Hl & _).
    by rewrite delivered_message.
Qed.

Lemma never_twice_witness :
  NoDup (dest <$> delivered (Message 0%nat [104; 105] false)
                    (after [Connection 0; Connection 1; Connection 2]%nat)).
Proof.
  apply (never_twice [Connection 0; Connection 1; Connection 2]%nat 0%nat
           [104; 105] false).
  evaluate.
Defined.

Lemma member_connected (evs : list event) (ws : endpoint) :
  ws ∈ clients (after evs) → Connection ws ∈ evs.
Proof.
  induction evs as [|e evs IH] using rev_ind.
  - by intros ?%not_elem_of_nil.
  - rewrite elem_of_app.
    destruct (after_snoc_any evs e) as [->| ->]; [by left; apply IH|].
    rewrite step_clients. destruct e as [x|x raw b|x|x m|x st|x];
      try (by left; apply IH).
    + intros [->|?]%elem_of_Set_add; [right; by left|by left; apply IH].
    + destruct (listeners _ _); [by left; apply IH|].
      intros [_ ?]%elem_of_Set_delete. by left; apply IH.
Qed.

(** A socket that has not connected has an empty inbox. *)
Lemma unconnected_inbox_empty (evs : list event) (ws : endpoint) :
  Connection ws ∉ evs → inbox ws (wire (after evs)) = [].
Proof.
  assert (∀ m, m ∈ wire (after evs) → Connection (dest m) ∈ evs) as Hall.
  { induction evs as [|e evs IH] using rev_ind.
    - by intros m ?%not_elem_of_nil.
    - intros m. rewrite elem_of_app.
      destruct (after_snoc_any evs e) as [->| ->]; [by left; apply IH|].
      rewrite step_wire. intros [?|Hm]%elem_of_app; [by left; apply IH|].
      pose proof (step_wire_silent e (after evs)) as Hsilent.
      destruct e as [x|x raw b|x|x msg|x st|x];
        try (rewrite Hsilent in Hm; by apply not_elem_of_nil in Hm).
      pose proof (delivered_to_recipients x raw b (after evs)) as Hto.
      rewrite Forall_forall in Hto. specialize (Hto m Hm).
      unfold recipients in Hto. apply list_elem_of_filter in Hto as [_ Hto].
      left. by apply member_connected. }
  intros Hnot. unfold inbox.
  destruct (filter _ _) as [|m t] eqn:E; [done|].
  assert (m ∈ filter (λ m, dest m = ws) (wire (after evs))) as Hm
    by (rewrite E; by left).
  apply list_elem_of_filter in Hm as [<- Hm]. by apply Hall in Hm.
Qed.

(** What the events [post] that follow [base] add to the wire comes from
    the message events among them. *)
Lemma wire_since (base post : list event) (m : sent) :
  m ∈ wire (after (base ++ post)) →
  m ∈ wire (after base)
  ∨ ∃ x raw b, Message x raw b ∈ post
               ∧ data m = Utf.Buffer_toString raw ∧ dest m ≠ x.
Proof.
  induction post as [|e post IH] using rev_ind.
  - rewrite (right_id_L [] (++)). by left.
  - assert (m ∈ wire (after (base ++ post)) →
            m ∈ wire (after base)
            ∨ ∃ x raw b, Message x raw b ∈ post ++ [e]
                         ∧ data m = Utf.Buffer_toString raw ∧ dest m ≠ x)
      as IH'.
    { intros [?|(x & raw & b & Hin & Hrest)]%IH; [by left|right].
      exists x, raw, b. split; [|done]. apply elem_of_app. by left. }
    rewrite (assoc_L (++)).
    destruct (after_snoc_any (base ++ post) e) as [->| ->]; [done|].
    rewrite step_wire. intros [?|Hm]%elem_of_app; [by apply IH'|].
    pose proof (step_wire_silent e (after (base ++ post))) as Hsilent.
    destruct e as [x|x raw b|x|x msg|x st|x];
      try (rewrite Hsilent in Hm; by apply not_elem_of_nil in Hm).
    right. exists x, raw, b.
    split; [apply elem_of_app; right; by left|].
    destruct (message_wire x raw b (after (base ++ post)))
      as (t & Ht & Hall).
    pose proof (delivered_to_recipients x raw b (after (base ++ post)))
      as Hto.
    unfold delivered in Hm, Hto. rewrite Ht, drop_app_length in Hm, Hto.
    rewrite Forall_forall in Hall, Hto. split; [by apply Hall|].
    specialize (Hto m Hm). unfold recipients in Hto.
    by apply list_elem_of_filter in Hto as [[? _] _].
Qed.

(** X4.  Nothing is kept for later arrivals, in any run at all: when a
    socket connects for the first time nothing has been sent to it and
    its connection sends it nothing, whatever was relayed before; and
    whatever it is sent afterwards is the text of a message event that
    came after its connection, from another socket. *)
Theorem nothing_before_connection (pre post : list event) (ws : endpoint)
    (m : sent) :
  Connection ws ∉ pre →
  inbox ws (wire (after (pre ++ [Connection ws]))) = []
  ∧ (m ∈ inbox ws (wire (after (pre ++ Connection ws :: post))) →
     ∃ x raw b, Message x raw b ∈ post
                ∧ data m = Utf.Buffer_toString raw ∧ x ≠ ws).
Proof.
  intros Hfirst.
  assert (inbox ws (wire (after (pre ++ [Connection ws]))) = []) as Hempty.
  { destruct (after_snoc_any pre (Connection ws)) as [->| ->].
    - by apply unconnected_inbox_empty.
    - rewrite step_wire, (step_wire_silent (Connection ws)).
      rewrite (right_id_L [] (++)). by apply unconnected_inbox_empty. }
  split; [done|].
  intros Hm. unfold inbox in Hm. apply list_elem_of_filter in Hm as [Hdest Hm].
  assert (pre ++ Connection ws :: post = (pre ++ [Connection ws]) ++ post)
    as Hshape by (by rewrite <-(assoc_L (++))).
  rewrite Hshape in Hm. apply wire_since in Hm as [Hm|Hm].
  - exfalso.
    assert (m ∈ inbox ws (wire (after (pre ++ [Connection ws])))) as Hin
      by (by apply list_elem_of_filter).
    rewrite Hempty in Hin. by apply not_elem_of_nil in Hin.
  - destruct Hm as (x & raw & b & Hin & Hdata & Hne).
    exists x, raw, b. split; [done|]. split; [done|]. congruence.
Qed.

(** A connects and sends "hello", then B connects: B has received
    nothing. *)
Lemma nothing_before_connection_witness :
  inbox 1%nat
    (wire (after ([Connection 0%nat;
                   Message 0%nat [104; 101; 108; 108; 111] false]
                  ++ [Connection 1%nat]))) = []
  ∧ ∃ x raw b,
      Message x raw b ∈ [Message 0%nat [121; 111] false]
      ∧ data (Sent 1%nat [121; 111] Written) = Utf.Buffer_toString raw
      ∧ x ≠ 1%nat.
Proof.
  destruct (nothing_before_connection
              [Connection 0%nat;
               Message 0%nat [104; 101; 108; 108; 111] false]
              [Message 0%nat [121; 111] false] 1%nat
              (Sent 1%nat [121; 111] Written)) as [Hempty Hlater].
  - decided.
  - split; [done|]. apply Hlater. vm_compute. left.
Defined.

(** *** The Set over a run that follows the event order *)

Lemma closings_closed (evs : list event) (ws : endpoint) :
  lifecycle evs = true → ws ∈ closings evs → phases evs !! ws = Some Closed.
Proof.
  intros Hlife Hin. apply close_seen; [done|].
  unfold closings in Hin. apply list_elem_of_In, in_flat_map in Hin.
  destruct Hin as (e & He & Hws). apply list_elem_of_In in He.
  destruct e; try (by destruct Hws). by destruct Hws as [->|[]].
Qed.

Lemma connections_snoc (evs : list event) (e : event) :
  connections (evs ++ [e])
  = connections evs ++ match e with Connection ws => [ws] | _ => [] end.
Proof.
  unfold connections. rewrite flat_map_app. simpl.
  by rewrite (right_id_L [] (++)).
Qed.

Lemma closings_snoc (evs : list event) (e : event) :
  closings (evs ++ [e])
  = closings evs ++ match e with Close ws => [ws] | _ => [] end.
Proof.
  unfold closings. rewrite flat_map_app. simpl.
  by rewrite (right_id_L [] (++)).
Qed.

(** What the run has made of the Set: the connected sockets that have not
    closed, in connection order, each counted once. *)
Lemma set_of_run (evs : list event) :
  lifecycle evs = true →
  clients (after evs) = filter (λ ws, ws ∉ closings evs) (connections evs)
  ∧ (length (clients (after evs)) + length (closings evs)
     = length (connections evs))%nat.
Proof.
  induction evs as [|e evs IH] using rev_ind; [done|].
  intros Hlife. destruct (after_snoc _ _ Hlife) as (-> & Hpre & Hok).
  destruct (IH Hpre) as [Hset Hsize].
  destruct (after_lifecycle _ Hpre) as [_ Hcons].
  rewrite connections_snoc, closings_snoc.
  destruct e as [x|x raw b|x|x msg|x st|x]; cbn [allowed] in Hok;
    try apply bool_decide_eq_true_1 in Hok;
    rewrite ?(right_id_L [] (++)).
  - assert (x ∉ clients (after evs)) as Hnew
      by (rewrite (cons_clients _ _ Hcons), Hok; done).
    assert (x ∉ closings evs) as Hopen.
    { intros Hx%closings_closed; [congruence|done]. }
    rewrite step_connection by done. cbn [clients snd].
    rewrite filter_app, filter_cons, decide_True by done.
    rewrite !length_app. cbn [length]. rewrite <-Hset. split; [done|lia].
  - by rewrite (step_clients (Message x raw b)).
  - assert (x ∈ clients (after evs)) as Hin
      by (by apply (cons_clients _ _ Hcons)).
    rewrite step_close by (by rewrite (cons_close _ _ Hcons), Hok).
    cbn [clients snd]. split.
    + unfold Set_delete. rewrite Hset, list_filter_filter.
      apply list_filter_iff. intros y.
      rewrite elem_of_app, list_elem_of_singleton. tauto.
    + pose proof (length_filter_ne x _ (cons_nodup _ _ Hcons) Hin) as Hlen.
      unfold Set_delete. rewrite length_app. cbn [length]. lia.
  - by rewrite (step_clients (Error x msg)).
  - done.
  - done.
Qed.

(** X5.  In a run that follows the event order the Set holds exactly the
    sockets that connected and have not closed, in the order in which they
    connected. *)
Theorem set_in_connection_order (evs : list event) :
  lifecycle evs = true →
  clients (after evs) = filter (λ ws, ws ∉ closings evs) (connections evs).
Proof. intros H. by destruct (set_of_run evs H). Qed.

Lemma set_in_connection_order_witness :
  clients (after [Connection 3; Connection 1; Connection 2; Close 1]%nat)
  = [3; 2]%nat.
Proof.
  rewrite (set_in_connection_order
             [Connection 3; Connection 1; Connection 2; Close 1]%nat);
    evaluate.
Defined.

(** X6.  In such a run the size of the Set, which the connection and
    close handlers log as the total, is the number of [connection] events
    less the number of [close] events. *)
Theorem set_size_counts (evs : list event) :
  lifecycle evs = true →
  Set_size (clients (after evs))
  = (length (connections evs) - length (closings evs))%nat.
Proof. intros H. destruct (set_of_run evs H). unfold Set_size. lia. Qed.

Lemma set_size_counts_witness :
  Set_size (clients (after [Connection 3; Connection 1; Connection 2;
                            Close 1]%nat)) = (3 - 1)%nat.
Proof.
  apply (set_size_counts
           [Connection 3; Connection 1; Connection 2; Close 1]%nat).
  evaluate.
Defined.

(** X7.  In such a run the destinations of a message are served in the
    order in which they connected. *)
Theorem fan_out_in_connection_order (pre : list event) (ws : endpoint)
    (raw : list Z) (b : bool) :
  lifecycle (pre ++ [Message ws raw b]) = true →
  dest <$> delivered (Message ws raw b) (after pre)
  = filter (λ c, c ≠ ws ∧ readyState (after pre) !! c = Some 1)
      (filter (λ c, c ∉ closings pre) (connections pre)).
Proof.
  intros Hlife.
  destruct (message_in_lifecycle _ _ _ _ Hlife) as (_ & _ & Hl & _).
  rewrite delivered_message, relayed_dests by done.
  unfold recipients.
  by rewrite (proj1 (set_of_run pre (lifecycle_prefix _ _ Hlife))).
Qed.

Lemma fan_out_in_connection_order_witness :
  dest <$> delivered (Message 1%nat [104; 105] false)
             (after [Connection 3; Connection 1; Connection 2]%nat)
  = [3; 2]%nat.
Proof.
  rewrite (fan_out_in_connection_order
             [Connection 3; Connection 1; Connection 2]%nat 1%nat
             [104; 105] false); evaluate.
Defined.

(** *** After the close *)

Lemma closed_inbox_frozen (ws : endpoint) (post : list event) :
  ∀ ph w, consistent ph w → lifecycle_from ph post = true →
          ph !! ws = Some Closed →
          inbox ws (wire (run post w).2) = inbox ws (wire w).
Proof.
  induction post as [|e post IH]; intros ph w Hw Hlife Hclosed; [done|].
  simpl in Hlife. apply andb_true_iff in Hlife as [Hok Hrest].
  destruct (step_consistent ph e w Hw Hok) as (w1 & Hstep & Hw1).
  assert (phase_step ph e !! ws = Some Closed) as Hclosed1.
  { apply (closed_stays [e] ws ph); [|done]. simpl. by rewrite Hok. }
  unfold run in *. cbn [for_of]. unfold mbind, js_bind. rewrite Hstep.
  rewrite (IH _ _ Hw1 Hrest Hclosed1).
  assert (wire w1 = wire w ++ delivered e w) as ->.
  { rewrite <-step_wire. by rewrite Hstep. }
  rewrite inbox_app.
  assert (inbox ws (delivered e w) = []) as ->;
    [|by rewrite (right_id_L [] (++))].
  assert (ws ∉ clients w) as Hout
    by (rewrite (cons_clients _ _ Hw), Hclosed; done).
  pose proof (step_wire_silent e w) as Hsilent.
  destruct e as [x|x raw b|x|x msg|x st|x]; try (by rewrite Hsilent).
  pose proof (delivered_to_recipients x raw b w) as Hto.
  unfold inbox. induction Hto as [|m t Hm _ IHt]; [done|].
  rewrite filter_cons, decide_False; [done|].
  intros <-. unfold recipients in Hm.
  by apply list_elem_of_filter in Hm as [_ Hm].
Qed.

(** X8.  In a run that follows the event order nothing is sent to a
    socket once its [close] event has been handled: its inbox stays what it
    was before the close. *)
Theorem nothing_after_close (pre post : list event) (ws : endpoint) :
  lifecycle (pre ++ Close ws :: post) = true →
  inbox ws (wire (after (pre ++ Close ws :: post)))
  = inbox ws (wire (after pre)).
Proof.
  intros Hlife.
  assert (pre ++ Close ws :: post = (pre ++ [Close ws]) ++ post) as Hshape
    by (by rewrite <-(assoc_L (++))).
  rewrite Hshape in *.
  pose proof (lifecycle_prefix _ _ Hlife) as Hclose.
  rewrite (after_app _ _ Hlife).
  destruct (after_lifecycle _ Hclose) as [_ Hcons].
  unfold lifecycle in Hlife. rewrite lifecycle_from_app in Hlife.
  apply andb_true_iff in Hlife as [_ Hpost].
  rewrite (closed_inbox_frozen ws post _ _ Hcons Hpost).
  - destruct (after_snoc _ _ Hclose) as (-> & _ & _).
    rewrite step_wire.
    rewrite (step_wire_silent (Close ws)). by rewrite (right_id_L [] (++)).
  - apply close_seen; [done|]. apply elem_of_app. right. by left.
Qed.

Lemma nothing_after_close_witness :
  inbox 1%nat
    (wire (after ([Connection 0; Connection 1;
                   Message 0 [104; 105]%Z false]%nat
                  ++ Close 1%nat :: [Message 0%nat [121; 111] false])))
  = [Sent 1%nat [104; 105] Written].
Proof.
  rewrite (nothing_after_close
             [Connection 0; Connection 1; Message 0 [104; 105]%Z false]%nat
             [Message 0%nat [121; 111] false] 1%nat); evaluate.
Defined.

(** *** Connecting, failing, closing *)

Lemma for_of_normal {A} (xs : list A) (body : A → js ()) :
  (∀ x w, (body x w).1 = Normal ()) → ∀ w, (for_of xs body w).1 = Normal ().
Proof.
  intros Hbody. induction xs as [|x xs IH]; intros w; simpl; [done|].
  unfold mbind, js_bind. specialize (Hbody x w).
  destruct (body x w) as [[[]|e] w']; simpl in *; [apply IH|done].
Qed.

Lemma listeners_after_connection (ws : endpoint) (w : world) :
  listeners (on_close (step (Connection ws) w).2) ws ≠ []
  ∧ listeners (on_error (step (Connection ws) w).2) ws ≠ [].
Proof.
  unfold step. unfold mbind, js_bind, set_readyState.
  rewrite connection_handler_spec. cbn [snd on_close on_error].
  rewrite !listeners_snoc, decide_True by done.
  split; intros H; by apply app_eq_nil in H as [_ ?].
Qed.

(** X9.  A socket that connects and then closes leaves the Set as it
    found it, members and order, and neither handler throws. *)
Theorem connect_then_close (w : world) (ws : endpoint) :
  ws ∉ clients w →
  (run [Connection ws; Close ws] w).1 = Normal ()
  ∧ clients (run [Connection ws; Close ws] w).2 = clients w.
Proof.
  intros Hnew. unfold run. cbn [for_of]. unfold mbind, js_bind.
  pose proof (listeners_after_connection ws w) as [Hclose _].
  pose proof (step_clients (Close ws) (step (Connection ws) w).2) as Hset.
  rewrite (step_clients (Connection ws)) in Hset.
  destruct (step (Connection ws) w) as [[[]|?] w1] eqn:E1.
  2:{ by rewrite step_connection in E1. }
  cbn [snd] in *.
  assert ((step (Close ws) w1).1 = Normal ()) as Hnormal.
  { unfold step, emit. unfold mbind, js_bind, set_readyState.
    by apply for_of_normal. }
  destruct (step (Close ws) w1) as [[[]|?] w2]; [|done].
  cbn [fst snd mret js_ret] in *. split; [done|]. rewrite Hset.
  destruct (listeners (on_close w1) ws); [done|].
  unfold Set_add. rewrite bool_decide_eq_false_2 by done.
  unfold Set_delete. rewrite filter_app, filter_cons, decide_False by tauto.
  rewrite filter_nil, (right_id_L [] (++)).
  by apply Set_delete_absent.
Qed.

Lemma connect_then_close_witness :
  clients (run [Connection 7%nat; Close 7%nat]
             (after [Connection 0; Connection 1]%nat)).2
  = clients (after [Connection 0; Connection 1]%nat).
Proof.
  apply (connect_then_close (after [Connection 0; Connection 1]%nat) 7%nat).
  decided.
Defined.

(** X10.  No run that follows the event order ends in an exception:
    every handler of every event returns normally. *)
Theorem lifecycle_never_throws (evs : list event) :
  lifecycle evs = true → (run evs initial).1 = Normal ().
Proof. intros H. by destruct (after_lifecycle evs H) as [-> _]. Qed.

Lemma lifecycle_never_throws_witness :
  (run [Connection 0%nat; Error 0%nat "ECONNRESET"; Close 0%nat] initial).1
  = Normal ().
Proof. apply lifecycle_never_throws. evaluate. Defined.

(** X11.  Once the connection handler has run for a socket, an [error]
    event on it is not thrown, in whatever world: it changes neither the
    Set nor the wire.  On a socket that has no [error] listener the same
    event throws the error it carries, which ends the process. *)
Theorem error_is_survived (w : world) (ws : endpoint) (message : string) :
  (let w1 := (step (Connection ws) w).2 in
   (step (Error ws message) w1).1 = Normal ()
   ∧ clients (step (Error ws message) w1).2 = clients w1
   ∧ wire (step (Error ws message) w1).2 = wire w1)
  ∧ (listeners (on_error w) ws = [] →
     step (Error ws message) w = (Throw message, w)).
Proof.
  split.
  - pose proof (listeners_after_connection ws w) as [_ Herr].
    cbn zeta in *. set (w1 := (step (Connection ws) w).2) in *.
    split; [|split].
    + unfold step, emit_error, emit.
      destruct (listeners (on_error w1) ws) eqn:E; [done|].
      by apply for_of_normal.
    + apply (step_clients (Error ws message)).
    + rewrite step_wire, (step_wire_silent (Error ws message)).
      by rewrite (right_id_L [] (++)).
  - intros H. unfold step, emit_error. by rewrite H.
Qed.

Lemma error_is_survived_witness :
  step (Error 4%nat "EPIPE") (after [Connection 0%nat])
  = (Throw "EPIPE", after [Connection 0%nat]).
Proof.
  apply (error_is_survived (after [Connection 0%nat]) 4%nat "EPIPE").
  evaluate.
Defined.

(** X12.  The line that the message handler logs is the message itself
    when it has at most 80 code units, and otherwise its first 80 code
    units followed by one ellipsis: never more than 81 code units.  What is
    sent is the whole message all the same. *)
Theorem preview_is_bounded (w : world) (ws : endpoint) (raw : list Z) :
  let message := Utf.Buffer_toString raw in
  ∃ preview,
    console (message_handler ws raw w).2 = console w ++ [LogRelaying preview]
    ∧ (length preview ≤ 81)%nat
    ∧ ((length message ≤ 80)%nat → preview = message)
    ∧ ((80 < length message)%nat →
       preview = take 80 message ++ ELLIPSIS ∧ length preview = 81%nat)
    ∧ Forall (λ m, data m = message)
        (drop (length (wire w)) (wire (message_handler ws raw w).2)).
Proof.
  intros message. exists (preview_of message).
  rewrite message_handler_spec. cbn [snd console wire push logged].
  split; [done|]. unfold preview_of, JS.slice0, ELLIPSIS.
  destruct (Nat.ltb_spec 80 (length message)) as [Hlong|Hshort].
  - rewrite length_app, length_take. cbn [length].
    split; [lia|]. split; [lia|]. split; [split; [done|lia]|].
    rewrite drop_app_length. unfold relayed. by apply Forall_fmap, Forall_true.
  - split; [lia|]. split; [done|]. split; [lia|].
    rewrite drop_app_length. unfold relayed. by apply Forall_fmap, Forall_true.
Qed.

Lemma preview_is_bounded_witness :
  ∃ preview,
    console (message_handler 0%nat (replicate 100 65) initial).2
    = [LogRelaying preview]
    ∧ length preview = 81%nat.
Proof.
  destruct (preview_is_bounded initial 0%nat (replicate 100 65))
    as (preview & Hlog & _ & _ & Hlong & _).
  exists preview. split; [done|].
  apply Hlong. evaluate_lt.
Defined.

End RelayMore.

(** ** More on what [toString] and [send] do to a payload *)

Module UtfMore.
Import Utf UtfFacts.

Local Ltac Zify.zify_post_hook ::= Z.to_euclidean_division_equations.

Lemma between_true (lo x hi : Z) : between lo x hi = true ↔ lo <= x <= hi.
Proof. unfold between. rewrite andb_true_iff, !Z.leb_le. tauto. Qed.

Lemma replacement_scalar : scalar REPLACEMENT.
Proof. unfold scalar, REPLACEMENT. lia. Qed.

Lemma lead_promising (b : Z) :
  Forall scalar (lead b).1 ∧ promising (lead b).2.
Proof.
  unfold lead.
  destruct (between 0 b 127) eqn:E1.
  { apply between_true in E1. split; [|done].
    constructor; [|done]. unfold scalar. lia. }
  destruct (between 194 b 223) eqn:E2.
  { apply between_true in E2. split; [done|]. cbn. rewrite land_1F.
    intros b2 H2%between_true. unfold scalar. lia. }
  destruct (between 224 b 239) eqn:E3.
  { apply between_true in E3. split; [done|]. cbn. rewrite land_0F.
    intros b2 H2%between_true b3 H3%between_true. unfold scalar.
    destruct (Z.eqb_spec b 224), (Z.eqb_spec b 237); lia. }
  destruct (between 240 b 244) eqn:E4.
  { apply between_true in E4. split; [done|]. cbn. rewrite land_07.
    intros b2 H2%between_true b3 H3%between_true b4 H4%between_true.
    unfold scalar.
    destruct (Z.eqb_spec b 240), (Z.eqb_spec b 244); lia. }
  split; [|done]. constructor; [apply replacement_scalar|done].
Qed.

(** Whatever the bytes, the decoder yields scalar values only. *)
Lemma decode_scalar (bs : list Z) :
  ∀ st, promising st → Forall scalar (decode st bs).
Proof.
  induction bs as [|b bs IH]; intros st Hst.
  - destruct st; simpl; [|done].
    constructor; [apply replacement_scalar|done].
  - destruct (lead_promising b) as [Hout Hnext].
    destruct st as [[bits need lo hi]|]; cbn [decode].
    + cbn [lower upper Utf.bits Utf.need]. cbn in Hst.
      destruct (between lo b hi) eqn:E.
      * rewrite continuation.
        destruct need as [|[|n]]; cbn in Hst.
        -- constructor; [by apply Hst|by apply IH].
        -- constructor; [by apply Hst|by apply IH].
        -- apply IH. cbn. by apply Hst.
      * constructor; [apply replacement_scalar|].
        apply Forall_app. split; [done|by apply IH].
    + apply Forall_app. split; [done|by apply IH].
Qed.

Lemma Buffer_from_units_all (cps : list Z) :
  Forall scalar cps → Buffer_from (flat_map units cps) = encode cps.
Proof.
  unfold encode. induction 1 as [|cp cps Hcp _ IH]; [done|].
  simpl. by rewrite Buffer_from_units, IH.
Qed.

Lemma toString_well_formed (raw : list Z) :
  well_formed (Buffer_from (Buffer_toString raw)).
Proof.
  exists (decode None raw).
  assert (Forall scalar (decode None raw)) by (by apply decode_scalar).
  split; [done|]. by apply Buffer_from_units_all.
Qed.

Lemma ascii_well_formed (raw : list Z) : ascii raw → well_formed raw.
Proof.
  intros H. exists raw. split.
  - eapply Forall_impl; [apply H|]. intros b Hb. unfold scalar. cbn in Hb. lia.
  - unfold encode. induction H as [|b bs Hb _ IH]; [done|].
    simpl. rewrite <-IH. unfold bytes.
    destruct (Z.ltb_spec b 128); [done|lia].
Qed.

Lemma ascii_toString (raw : list Z) : ascii raw → Buffer_toString raw = raw.
Proof.
  intros H. unfold Buffer_toString.
  induction H as [|b bs Hb _ IH]; [done|].
  cbn [decode]. unfold lead.
  replace (between 0 b 127) with true
    by (symmetry; apply between_true; lia).
  cbn [fst snd app flat_map]. rewrite IH. unfold units.
  destruct (Z.ltb_spec b 65536); [done|lia].
Qed.

End UtfMore.

(** ** More on what goes onto the wire *)

Module WireMore.
Import Relay RelayFacts RelayMore.

Lemma delivered_data (w : world) (ws : endpoint) (raw : list Z) (b : bool)
    (m : sent) :
  m ∈ delivered (Message ws raw b) w → data m = Utf.Buffer_toString raw.
Proof.
  intros Hm. destruct (message_wire ws raw b w) as (t & Ht & Hall).
  unfold delivered in Hm. rewrite Ht, drop_app_length in Hm.
  rewrite Forall_forall in Hall. by apply Hall.
Qed.

(** X13.  Whatever bytes come in, the frame that the relay writes holds
    well-formed UTF-8; relayed once more, by this relay or another like
    it, it goes out unchanged. *)
Theorem forwarded_is_well_formed (w w' : world) (ws ws' : endpoint)
    (raw : list Z) (b b' : bool) (m m' : sent) :
  m ∈ delivered (Message ws raw b) w →
  Utf.well_formed (payload (frame_of m))
  ∧ (m' ∈ delivered (Message ws' (payload (frame_of m)) b') w' →
     frame_of m' = frame_of m).
Proof.
  intros Hm%delivered_data. unfold frame_of at 1 2. cbn [payload].
  rewrite Hm. split; [apply UtfMore.toString_well_formed|].
  intros Hm'%delivered_data. unfold frame_of. rewrite Hm', Hm.
  f_equal. apply UtfFacts.Buffer_from_toString, UtfMore.toString_well_formed.
Qed.

Lemma forwarded_is_well_formed_witness :
  Utf.well_formed (payload (frame_of (Sent 1%nat [0xFFFD; 0x41] Written))).
Proof.
  apply (forwarded_is_well_formed (after [Connection 0; Connection 1]%nat)
           initial 0%nat 0%nat [0xC0; 0x41] true false
           (Sent 1%nat [0xFFFD; 0x41] Written)
           (Sent 1%nat [0xFFFD; 0x41] Written)).
  vm_compute. left.
Defined.

(** X14.  A payload of 7-bit bytes, which is what JSON-encoded offers,
    answers and candidates are, is relayed as it is: the string sent has
    the bytes as its code units and the frame written holds the very
    bytes. *)
Theorem ascii_payload_unchanged (w : world) (ws : endpoint) (raw : list Z)
    (b : bool) (m : sent) :
  Utf.ascii raw → m ∈ delivered (Message ws raw b) w →
  data m = raw ∧ frame_of m = Frame false raw.
Proof.
  intros Hascii Hm%delivered_data. unfold frame_of. rewrite Hm.
  rewrite UtfMore.ascii_toString by done. split; [done|].
  f_equal. rewrite <-(UtfMore.ascii_toString raw) at 1 by done.
  by apply UtfFacts.Buffer_from_toString, UtfMore.ascii_well_formed.
Qed.

Lemma ascii_payload_unchanged_witness :
  data (Sent 1%nat [123; 125] Written) = [123; 125]
  ∧ frame_of (Sent 1%nat [123; 125] Written) = Frame false [123; 125].
Proof.
  apply (ascii_payload_unchanged (after [Connection 0; Connection 1]%nat)
           0%nat [123; 125] false (Sent 1%nat [123; 125] Written)).
  - repeat constructor; lia.
  - vm_compute. left.
Defined.

(** X15.  Nobody hears an echo: in any run at all in which [ws] is the
    only socket that messages come from, nothing is ever sent to [ws]. *)
Theorem no_echo (evs : list event) (ws : endpoint) :
  (∀ x raw b, Message x raw b ∈ evs → x = ws) →
  inbox ws (wire (after evs)) = [].
Proof.
  induction evs as [|e evs IH] using rev_ind; [done|].
  intros Honly.
  assert (inbox ws (wire (after evs)) = []) as IH'.
  { apply IH. intros x raw b Hin. apply (Honly x raw b).
    apply elem_of_app. by left. }
  destruct (after_snoc_any evs e) as [->| ->]; [done|].
  rewrite step_wire, inbox_app, IH'. cbn [app].
  pose proof (step_wire_silent e (after evs)) as Hsilent.
  destruct e as [x|x raw b|x|x msg|x st|x]; try (by rewrite Hsilent).
  assert (x = ws) as ->.
  { apply (Honly x raw b). apply elem_of_app. right. by left. }
  pose proof (delivered_to_recipients ws raw b (after evs)) as Hto.
  unfold inbox. induction Hto as [|m t Hm _ IHt]; [done|].
  rewrite filter_cons, decide_False; [done|].
  intros Heq. unfold recipients in Hm.
  apply list_elem_of_filter in Hm as [[Hne _] _]. done.
Qed.

Lemma no_echo_witness :
  inbox 0%nat
    (wire (after [Connection 0%nat; Connection 1%nat;
                  Message 0%nat [104; 105] false])) = [].
Proof.
  apply no_echo. intros x raw b Hin.
  repeat (apply elem_of_cons in Hin as [Hin|Hin]); try discriminate.
  - by injection Hin.
  - exfalso. exact (not_elem_of_nil _ Hin).
Defined.

(** X19.  The relay originates nothing: in any run at all, every record
    on the wire carries the text of a message event of the run that came
    from a socket other than the one it is addressed to. *)
Theorem nothing_originated (evs : list event) (m : sent) :
  m ∈ wire (after evs) →
  ∃ ws raw b, Message ws raw b ∈ evs
              ∧ data m = Utf.Buffer_toString raw
              ∧ dest m ≠ ws.
Proof.
  induction evs as [|e evs IH] using rev_ind.
  - by intros ?%not_elem_of_nil.
  - assert (m ∈ wire (after evs) →
            ∃ ws raw b, Message ws raw b ∈ evs ++ [e]
                        ∧ data m = Utf.Buffer_toString raw ∧ dest m ≠ ws)
      as IH'.
    { intros (ws & raw & b & Hin & Hrest)%IH. exists ws, raw, b.
      split; [|done]. apply elem_of_app. by left. }
    destruct (after_snoc_any evs e) as [->| ->]; [done|].
    rewrite step_wire. intros [?|Hm]%elem_of_app; [by apply IH'|].
    pose proof (step_wire_silent e (after evs)) as Hsilent.
    destruct e as [x|x raw b|x|x msg|x st|x];
      try (rewrite Hsilent in Hm; by apply not_elem_of_nil in Hm).
    exists x, raw, b.
    split; [apply elem_of_app; right; by left|].
    split; [by eapply delivered_data|].
    pose proof (delivered_to_recipients x raw b (after evs)) as Hto.
    rewrite Forall_forall in Hto. specialize (Hto m Hm).
    unfold recipients in Hto.
    by apply list_elem_of_filter in Hto as [[? _] _].
Qed.

Lemma nothing_originated_witness :
  ∃ ws raw b,
    Message ws raw b
    ∈ [Connection 0%nat; Connection 1%nat; Message 0%nat [104; 105] false]
    ∧ data (Sent 1%nat [104; 105] Written) = Utf.Buffer_toString raw
    ∧ dest (Sent 1%nat [104; 105] Written) ≠ ws.
Proof.
  apply (nothing_originated
           [Connection 0%nat; Connection 1%nat;
            Message 0%nat [104; 105] false]).
  vm_compute. left.
Defined.

End WireMore.

(** ** More on the HTTP server and the port *)

Module HttpMore.
Import Http HttpFacts.

(** X16.  Whatever the URL, the handler reads nothing but the three
    served files in [__dirname]: two file systems that agree on these
    three paths get the same answer to every request. *)
Theorem reads_only_served_files (dirname : string)
    (readFile readFile' : string → option (list Z)) (url : string) :
  (∀ fileName,
     fileName ∈ ["auto.html"; "sender.html"; "receiver.html"]%string →
     readFile (path_join dirname fileName)
     = readFile' (path_join dirname fileName)) →
  request_handler dirname readFile url = request_handler dirname readFile' url.
Proof.
  intros Hagree. unfold request_handler, JS.get.
  destruct (ROUTES !! url) as [fileName|] eqn:Hroute;
    [|by case_bool_decide].
  apply routes_files in Hroute. by rewrite (Hagree _ Hroute).
Qed.

Lemma reads_only_served_files_witness :
  request_handler "/srv/app"
    (λ path, if String.eqb path "/etc/passwd" then Some [114] else None)
    "/etc/passwd"
  = request_handler "/srv/app" (λ _, None) "/etc/passwd".
Proof.
  apply reads_only_served_files. intros fileName _. reflexivity.
Defined.

Lemma route_keys (url : string) :
  url ∉ ["/"; "/auto"; "/sender"; "/receiver"]%string → ROUTES !! url = None.
Proof. intros H. by apply not_elem_of_list_to_map_1. Qed.

(** X17.  Routes are matched against the whole request target: a route
    followed by a query string is not found. *)
Theorem query_string_not_found (dirname : string)
    (readFile : string → option (list Z)) (route query : string) :
  is_Some (ROUTES !! route) →
  request_handler dirname readFile (route +:+ "?" +:+ query)
  = Responded (Response 404 (JS.JString "text/plain") (Text "404 — Not Found")).
Proof.
  intros [fileName Hroute]. apply elem_of_list_to_map_2 in Hroute.
  assert (ROUTES !! (route +:+ "?" +:+ query)%string = None
          ∧ request_target (route +:+ "?" +:+ query) = true) as [Hnone Htarget].
  { repeat (apply elem_of_cons in Hroute as [Hroute|Hroute]);
      try (injection Hroute as -> ->;
           split; [|reflexivity]; apply route_keys;
           rewrite !append_cons;
           intros Hin; repeat (apply elem_of_cons in Hin as [Hin|Hin]);
           try discriminate; exact (not_elem_of_nil _ Hin)).
    exfalso. exact (not_elem_of_nil _ Hroute). }
  unfold request_handler, JS.get. rewrite Hnone.
  rewrite bool_decide_eq_false_2; [done|].
  intros Hproto%prototype_not_target. congruence.
Qed.

Lemma query_string_not_found_witness :
  request_handler "/srv/app" (λ _, Some [60]) "/sender?room=1"
  = Responded (Response 404 (JS.JString "text/plain") (Text "404 — Not Found")).
Proof.
  apply (query_string_not_found "/srv/app" (λ _, Some [60]) "/sender"
           "room=1").
  by exists "sender.html"%string.
Defined.

End HttpMore.

Module PortMore.
Import Port.

(** X18.  The value that [listen] gets is never falsy, and no environment
    variable other than [PORT] has a say in it. *)
Theorem port_is_truthy (env : gmap string string) (name value : string) :
  JS.truthy (PORT env) = true
  ∧ (name ≠ "PORT"%string → PORT (<[name := value]> env) = PORT env).
Proof.
  split.
  - unfold PORT, JS.or. destruct (JS.truthy (JS.get env "PORT")) eqn:E; done.
  - intros Hne. unfold PORT, JS.get. by rewrite lookup_insert_ne.
Qed.

Lemma port_is_truthy_witness :
  PORT (<["HOME"%string := "/root"%string]> ∅) = PORT ∅.
Proof. by apply (port_is_truthy ∅ "HOME" "/root"). Defined.

End PortMore.
